(** * juju-verify: the Ceph verifiers ([juju_verify/verifiers/ceph.py])

    A shallow embedding of the CRUSH tree ([NodeInfo], [CephTree]) and of the
    checks of the [CephCommon], [CephOsd] and [CephMon] verifiers, with the
    properties the specification states about them.

    Python integers are unbounded: they are [Z].  Strings are [string].
    Exceptions are values of [exn]; a call that may raise returns [res]. *)

From Stdlib Require Import ZArith String Ascii List Permutation Sorted Lia.
From stdpp Require Import base decidable option list gmap strings pretty.

Local Open Scope string_scope.
Local Open Scope Z_scope.
Local Open Scope list_scope.

(** ** Exceptions *)

(** The exception classes that the modelled code raises or lets through. *)
Inductive exn : Type :=
  | KeyError
  | ValueError
  | TypeError
  | RecursionError
  | JSONDecodeError.

Global Instance exn_eq_dec : EqDecision exn.
Proof. solve_decision. Defined.

(** The outcome of a call: a returned value or a raised exception. *)
Inductive res (A : Type) : Type :=
  | Ok (a : A)
  | Raise (e : exn).
Arguments Ok {A} a.
Arguments Raise {A} e.

(** Sequencing: an exception raised by the first call propagates. *)
Global Instance res_bind : MBind res := λ A B k m,
  match m with
  | Ok a => k a
  | Raise e => Raise e
  end.

Definition raises {A : Type} (m : res A) : Prop := ∃ e, m = Raise e.

(** ** The CRUSH tree *)

Definition CEPH_CRUSH_TYPES : list (string * Z) :=
  [ ("root", 10); ("region", 9); ("datacenter", 8); ("room", 7); ("pod", 6);
    ("pdu", 5); ("row", 4); ("rack", 3); ("chassis", 2); ("host", 1);
    ("osd", 0) ].

(** [class NodeInfo(NamedTuple)].  Tuple equality compares every field, and
    two equal tuples have the same [__str__], hence the same [__hash__]: as a
    dictionary key a node is identified by Leibniz equality of the record. *)
Module NodeInfo.
Record t : Type := mk {
  id : Z;
  name : string;
  type_id : Z;
  type : string;
  kb : Z;
  kb_used : Z;
  kb_avail : Z;
  children : option (list Z)
}.
End NodeInfo.

Global Instance NodeInfo_eq_dec : EqDecision NodeInfo.t.
Proof. solve_decision. Defined.

(** [class CephTree]: the node list and the name -> index dictionary. *)
Record CephTree : Type := mkCephTree {
  _nodes : list NodeInfo.t;
  _nodes_name_map : gmap string nat
}.

Definition SUPPORTED_ANCESTOR_TYPES : list string :=
  [ "root"; "region"; "datacenter"; "room"; "pod"; "pdu"; "row"; "rack";
    "chassis" ].

(** [{node.name: index for index, node in enumerate(nodes)}]: a later node
    with the same name overwrites the index of an earlier one. *)
Fixpoint name_map_from (index : nat) (nodes : list NodeInfo.t)
    (acc : gmap string nat) : gmap string nat :=
  match nodes with
  | [] => acc
  | node :: rest =>
      name_map_from (S index) rest (<[NodeInfo.name node := index]> acc)
  end.

(** [CephTree.__init__] *)
Definition CephTree_init (nodes : list NodeInfo.t) : CephTree :=
  {| _nodes := nodes; _nodes_name_map := name_map_from 0 nodes ∅ |}.

(** [CephTree._get_node]: [KeyError] for an unknown name; an index out of
    range or a node of another name ([IndexError], [AssertionError]) is
    re-raised as [ValueError]. *)
Definition _get_node (self : CephTree) (name : string) : res NodeInfo.t :=
  match _nodes_name_map self !! name with
  | None => Raise KeyError
  | Some index =>
      match _nodes self !! index with
      | None => Raise ValueError
      | Some node =>
          if decide (NodeInfo.name node = name) then Ok node
          else Raise ValueError
      end
  end.

(** [_node.children and node.id in _node.children]: [None] and the empty
    list are both falsy. *)
Definition is_child_of (node _node : NodeInfo.t) : bool :=
  match NodeInfo.children _node with
  | None => false
  | Some [] => false
  | Some ids => bool_decide (NodeInfo.id node ∈ ids)
  end.

(** [CephTree._find_ancestor].  The loop over [self._nodes] returns at the
    first node that has [node.id] among its children: that node itself when
    it is of the required type, the result of the recursive call on it
    otherwise.  The recursion is not structural; [limit] is the number of
    nested calls the interpreter still allows, and exceeding it raises
    [RecursionError] as in Python. *)
Fixpoint _find_ancestor (limit : nat) (self : CephTree) (node : NodeInfo.t)
    (required_type : string) : res (option NodeInfo.t) :=
  match limit with
  | O => Raise RecursionError
  | S limit' =>
      match List.find (is_child_of node) (_nodes self) with
      | Some _node =>
          if decide (NodeInfo.type _node ≠ required_type)
          then _find_ancestor limit' self _node required_type
          else Ok (Some _node)
      | None => Ok None
      end
  end.

(** [all(self._get_node(name).type == "host" for name in names)]: the
    generator is consumed lazily, so the first name that is unknown raises
    and the first node that is not a host ends the scan with [False]. *)
Fixpoint all_names_are_hosts (self : CephTree) (names : list string)
    : res bool :=
  match names with
  | [] => Ok true
  | name :: rest =>
      node ← _get_node self name;
      if decide (NodeInfo.type node = "host")
      then all_names_are_hosts self rest
      else Ok false
  end.

(** [ancestors_map[ancestor].append(descendent)] on a [defaultdict(list)]:
    an association list in insertion order. *)
Fixpoint ancestors_map_append (ancestor descendent : NodeInfo.t)
    (ancestors_map : list (NodeInfo.t * list NodeInfo.t))
    : list (NodeInfo.t * list NodeInfo.t) :=
  match ancestors_map with
  | [] => [(ancestor, [descendent])]
  | (key, descendents) :: rest =>
      if decide (key = ancestor)
      then (key, descendents ++ [descendent]) :: rest
      else (key, descendents) :: ancestors_map_append ancestor descendent rest
  end.

(** The first loop of [can_remove_host_node]: resolve every name and its
    ancestor, and group the hosts by ancestor. *)
Fixpoint find_ancestors (limit : nat) (self : CephTree)
    (required_ancestor_type : string) (names : list string)
    (ancestors_map : list (NodeInfo.t * list NodeInfo.t))
    : res (list (NodeInfo.t * list NodeInfo.t)) :=
  match names with
  | [] => Ok ancestors_map
  | name :: rest =>
      descendent ← _get_node self name;
      ancestor ← _find_ancestor limit self descendent required_ancestor_type;
      match ancestor with
      | None => Raise ValueError
      | Some ancestor =>
          find_ancestors limit self required_ancestor_type rest
            (ancestors_map_append ancestor descendent ancestors_map)
      end
  end.

(** [sum(...)] over integers. *)
Definition sum (l : list Z) : Z := foldr Z.add 0 l.

(** The test of one group:
    [(ancestor.kb_avail - total_descendent_kb_avail) <= total_descendent_kb_used]. *)
Definition lack_of_space (ancestor : NodeInfo.t)
    (descendents : list NodeInfo.t) : bool :=
  let total_descendent_kb_used := sum (map NodeInfo.kb_used descendents) in
  let total_descendent_kb_avail := sum (map NodeInfo.kb_avail descendents) in
  NodeInfo.kb_avail ancestor - total_descendent_kb_avail
    <=? total_descendent_kb_used.

(** The second loop of [can_remove_host_node]: [False] at the first group
    that lacks space, [True] when the loop ends. *)
Fixpoint check_ancestors (ancestors_map : list (NodeInfo.t * list NodeInfo.t))
    : bool :=
  match ancestors_map with
  | [] => true
  | (ancestor, descendents) :: rest =>
      if lack_of_space ancestor descendents then false
      else check_ancestors rest
  end.

(** [CephTree.can_remove_host_node] *)
Definition can_remove_host_node (limit : nat) (self : CephTree)
    (names : list string) (required_ancestor_type : string) : res bool :=
  if decide (required_ancestor_type ∉ SUPPORTED_ANCESTOR_TYPES)
  then Raise ValueError
  else
    all_hosts ← all_names_are_hosts self names;
    if negb all_hosts then Raise ValueError
    else
      ancestors_map ←
        find_ancestors limit self required_ancestor_type names [];
      Ok (check_ancestors ancestors_map).

(** ** Sample trees *)

Definition mk_node (id : Z) (name : string) (type_id : Z) (type : string)
    (kb kb_used kb_avail : Z) (children : option (list Z)) : NodeInfo.t :=
  NodeInfo.mk id name type_id type kb kb_used kb_avail children.

(** The tree [root(-1) -> rack(-2) -> host(-4) -> osd(0)]. *)
Definition chain_root : NodeInfo.t :=
  mk_node (-1) "root" 10 "root" 1000 100 900 (Some [-2]).
Definition chain_rack : NodeInfo.t :=
  mk_node (-2) "rack.0" 3 "rack" 1000 100 900 (Some [-4]).
Definition chain_host : NodeInfo.t :=
  mk_node (-4) "host.0" 1 "host" 1000 100 900 (Some [0]).
Definition chain_osd : NodeInfo.t :=
  mk_node 0 "osd.0" 0 "osd" 1000 100 900 None.
Definition chain_tree : CephTree :=
  CephTree_init [chain_root; chain_rack; chain_host; chain_osd].

(** A root with [kb_avail = avail] over two hosts, each with
    [kb_used = 100] and [kb_avail = 400]. *)
Definition pair_root (avail : Z) : NodeInfo.t :=
  mk_node (-1) "root" 10 "root" 2000 200 avail (Some [-2; -3]).
Definition pair_host0 : NodeInfo.t :=
  mk_node (-2) "host.0" 1 "host" 500 100 400 (Some [0]).
Definition pair_host1 : NodeInfo.t :=
  mk_node (-3) "host.1" 1 "host" 500 100 400 (Some [1]).
Definition pair_tree (avail : Z) : CephTree :=
  CephTree_init [pair_root avail; pair_host0; pair_host1].

(** Two racks under a root: [rack.0] over [host.0] and [host.1], [rack.1]
    over [host.2]. *)
Definition racks_root : NodeInfo.t :=
  mk_node (-1) "root" 10 "root" 4000 1000 2000 (Some [-2; -3]).
Definition racks_rack0 : NodeInfo.t :=
  mk_node (-2) "rack.0" 3 "rack" 2000 500 1000 (Some [-4; -5]).
Definition racks_rack1 : NodeInfo.t :=
  mk_node (-3) "rack.1" 3 "rack" 2000 500 1000 (Some [-6]).
Definition racks_host0 : NodeInfo.t :=
  mk_node (-4) "host.0" 1 "host" 500 100 400 (Some [0]).
Definition racks_host1 : NodeInfo.t :=
  mk_node (-5) "host.1" 1 "host" 500 100 400 (Some [1]).
Definition racks_host2 : NodeInfo.t :=
  mk_node (-6) "host.2" 1 "host" 200 100 100 (Some [2]).
Definition racks_tree : CephTree :=
  CephTree_init
    [racks_root; racks_rack0; racks_rack1; racks_host0; racks_host1;
     racks_host2].

(** ** Results *)

(** Modelled from the spec: [Severity] of [juju_verify/verifiers/result.py],
    which is not among the sources; the ordered severities OK < WARN < FAIL. *)
Inductive Severity : Type :=
  | OK
  | WARN
  | FAIL.

Global Instance Severity_eq_dec : EqDecision Severity.
Proof. solve_decision. Defined.

Definition Severity_rank (s : Severity) : nat :=
  match s with
  | OK => 0
  | WARN => 1
  | FAIL => 2
  end.

(** Modelled from the spec: [Result] of [juju_verify/verifiers/result.py],
    which is not among the sources; an ordered sequence of (severity, message)
    partials. *)
Record Result : Type := mkResult {
  partials : list (Severity * string)
}.

Global Instance Result_eq_dec : EqDecision Result.
Proof. solve_decision. Defined.

(** Modelled from the spec: [Result()], the constructor without argument,
    an implicit OK with no partials. *)
Definition Result_empty : Result := {| partials := [] |}.

(** Modelled from the spec: [Result(severity, message)], one partial. *)
Definition Result_of (severity : Severity) (message : string) : Result :=
  {| partials := [(severity, message)] |}.

(** Modelled from the spec: [Result.add_partial_result] appends a partial. *)
Definition add_partial_result (result : Result) (severity : Severity)
    (message : string) : Result :=
  {| partials := partials result ++ [(severity, message)] |}.

(** Modelled from the spec: [Result.__add__], the partials of both in order. *)
Definition combine (a b : Result) : Result :=
  {| partials := partials a ++ partials b |}.

(** Modelled from the spec: [Result.success], true iff no partial carries
    FAIL. *)
Definition success (result : Result) : bool :=
  forallb (λ partial, negb (bool_decide (partial.1 = FAIL))) (partials result).

(** Modelled from the spec: the severity of a result is the dominant one of
    its partials, OK when there is none. *)
Definition severity (result : Result) : Severity :=
  foldr (λ partial acc,
           if (Severity_rank acc <? Severity_rank partial.1)%nat
           then partial.1 else acc)
        OK (partials result).

(** Modelled from the spec: [result or other], where a result is falsy when
    no partial was ever added to it. *)
Definition Result_or (result other : Result) : Result :=
  match partials result with
  | [] => other
  | _ :: _ => result
  end.

(** ** Cluster health *)

(** [needle in haystack] on strings. *)
Fixpoint contains (needle haystack : string) : bool :=
  if String.prefix needle haystack then true
  else
    match haystack with
    | EmptyString => false
    | String _ rest => contains needle rest
    end.

Section ClusterHealth.
(** [os.linesep] *)
Variable linesep : string.

(** The body of the loop of [check_cluster_health], for one unit and the
    message of its [get-health] action. *)
Definition cluster_health_partial (result : Result) (unit : string)
    (cluster_health : string) : Result :=
  if contains "HEALTH_OK" cluster_health && success result then
    add_partial_result result OK (unit +:+ ": Ceph cluster is healthy")
  else if contains "HEALTH_WARN" cluster_health then
    add_partial_result result FAIL
      (unit +:+ ": Ceph cluster is in a warning state" +:+ linesep
            +:+ "  " +:+ cluster_health)
  else if contains "HEALTH_ERR" cluster_health then
    add_partial_result result FAIL
      (unit +:+ ": Ceph cluster is unhealthy" +:+ linesep
            +:+ "  " +:+ cluster_health)
  else
    add_partial_result result FAIL
      (unit +:+ ": Ceph cluster is in an unknown state" +:+ linesep
            +:+ "  " +:+ cluster_health).

(** [for unit, action in action_map.items()] *)
Fixpoint cluster_health_loop (result : Result)
    (action_map : list (string * string)) : Result :=
  match action_map with
  | [] => result
  | (unit, cluster_health) :: rest =>
      cluster_health_loop
        (cluster_health_partial result unit cluster_health) rest
  end.

(** [CephCommon.check_cluster_health].  [action_map] is what
    [run_action_on_units] returned: for each unit, in the order of the
    dictionary, the message of its [get-health] action.  The call of
    [verify_charm_unit] and the remote actions belong to the callers'
    side and are not modelled. *)
Definition check_cluster_health (action_map : list (string * string))
    : Result :=
  let result := cluster_health_loop Result_empty action_map in
  match action_map with
  | [] => Result_of FAIL "Ceph cluster status could not be obtained"
  | _ :: _ => result
  end.
End ClusterHealth.

(** ** Action messages as JSON values *)

(** What [json.loads] returns.  Numbers are the integers; numbers with a
    fraction or an exponent are outside the model. *)
#[warnings="-register-all"]
Inductive json : Type :=
  | JNull
  | JBool (b : bool)
  | JInt (z : Z)
  | JStr (s : string)
  | JArr (items : list json)
  | JObj (members : list (string * json)).

(** The hashable values, up to Python's equality: [True == 1] and
    [False == 0] with equal hashes. *)
Inductive atom : Type :=
  | ANone
  | AInt (z : Z)
  | AStr (s : string).

Global Instance atom_eq_dec : EqDecision atom.
Proof. solve_decision. Defined.

Definition atom_encode (a : atom) : () + Z + string :=
  match a with
  | ANone => inl (inl ())
  | AInt z => inl (inr z)
  | AStr s => inr s
  end.

Definition atom_decode (x : () + Z + string) : atom :=
  match x with
  | inl (inl _) => ANone
  | inl (inr z) => AInt z
  | inr s => AStr s
  end.

Global Instance atom_countable : Countable atom.
Proof.
  apply (inj_countable' atom_encode atom_decode).
  intros a. destruct a; reflexivity.
Defined.

(** A unit of the model, with the fields the checks read. *)
Module Unit.
Record t : Type := mk {
  entity_id : string;
  application : string;
  machine_hostname : string;
  workload_status : string
}.
End Unit.

(** A finished action.  [message] is [data_from_action(action, "message")]
    as [json.loads] reads it: [None] when the text is not valid JSON. *)
Module Action.
Record t : Type := mk {
  entity_id : string;
  message : option json
}.
End Action.

(** [json.loads(...)] *)
Definition json_loads (message : option json) : res json :=
  match message with
  | Some value => Ok value
  | None => Raise JSONDecodeError
  end.

(** The value of a key in a dictionary read from a JSON object: the last
    member of that name. *)
Fixpoint dict_get (key : string) (members : list (string * json))
    : option json :=
  match members with
  | [] => None
  | (k, v) :: rest =>
      match dict_get key rest with
      | Some v' => Some v'
      | None => if decide (k = key) then Some v else None
      end
  end.

(** [value[key]] for a string key: [KeyError] on a dictionary without the
    key, [TypeError] on anything that is not a dictionary. *)
Definition subscript (value : json) (key : string) : res json :=
  match value with
  | JObj members =>
      match dict_get key members with
      | Some v => Ok v
      | None => Raise KeyError
      end
  | _ => Raise TypeError
  end.

(** The keys of a dictionary read from a JSON object, each once, in the
    order of their first occurrence. *)
Fixpoint dict_keys (members : list (string * json)) : list string :=
  match members with
  | [] => []
  | (k, _) :: rest =>
      k :: List.filter (λ k', negb (bool_decide (k' = k))) (dict_keys rest)
  end.

(** [iter(value)]: the items of a list, the keys of a dictionary, the
    characters of a string; [TypeError] otherwise. *)
Definition iterate (value : json) : res (list json) :=
  match value with
  | JArr items => Ok items
  | JObj members => Ok (map JStr (dict_keys members))
  | JStr s =>
      Ok (map (λ c, JStr (String c EmptyString)) (list_ascii_of_string s))
  | _ => Raise TypeError
  end.

(** [hash(value)]: lists and dictionaries are unhashable. *)
Definition hashable (value : json) : res atom :=
  match value with
  | JNull => Ok ANone
  | JBool b => Ok (AInt (if b then 1 else 0))
  | JInt z => Ok (AInt z)
  | JStr s => Ok (AStr s)
  | JArr _ | JObj _ => Raise TypeError
  end.

(** [set(f(item) for item in items)]: the items are taken in order and the
    first exception ends the construction. *)
Fixpoint set_of (f : json → res json) (items : list json)
    : res (gset atom) :=
  match items with
  | [] => Ok ∅
  | item :: rest =>
      value ← f item;
      a ← hashable value;
      s ← set_of f rest;
      Ok ({[a]} ∪ s)
  end.

(** ** The quorum of the monitors *)

(** [know_mons] of [_parse_quorum_status] *)
Definition know_mons (quorum_status : json) : res (gset atom) :=
  monmap ← subscript quorum_status "monmap";
  mons ← subscript monmap "mons";
  items ← iterate mons;
  set_of (λ mon, subscript mon "name") items.

(** [online_mons] of [_parse_quorum_status] *)
Definition online_mons (quorum_status : json) : res (gset atom) :=
  quorum_names ← subscript quorum_status "quorum_names";
  items ← iterate quorum_names;
  set_of Ok items.

(** [CephMon._parse_quorum_status] *)
Definition _parse_quorum_status (action : Action.t) : res (nat * gset atom) :=
  quorum_status ← json_loads (Action.message action);
  know ← know_mons quorum_status;
  online ← online_mons quorum_status;
  Ok (size know, online).

(** [{unit.machine.hostname for unit in self.units}] *)
Definition affected_hosts (units : list Unit.t) : gset atom :=
  list_to_set (map (λ unit, AStr (Unit.machine_hostname unit)) units).

Definition quorum_lost_message (unit_id : string) : string :=
  "Rebooting or shutting down the unit " +:+ unit_id
    +:+ " will lose ceph-mon quorum".

Definition quorum_parse_failed_message (action : Action.t) : string :=
  "Failed to parse quorum status from action " +:+ Action.entity_id action
    +:+ ".".

(** The body of the loop of [check_quorum]: the [try] block and its
    [except (json.decoder.JSONDecodeError, KeyError)]; any other exception
    leaves the loop. *)
Definition quorum_partial (hosts : gset atom) (result : Result)
    (unit_id : string) (action : Action.t) : res Result :=
  match _parse_quorum_status action with
  | Ok (mon_count, online) =>
      let mons_after_change := size (online ∖ hosts) in
      if (mons_after_change <=? mon_count / 2)%nat
      then Ok (add_partial_result result FAIL (quorum_lost_message unit_id))
      else Ok result
  | Raise JSONDecodeError | Raise KeyError =>
      Ok (add_partial_result result FAIL (quorum_parse_failed_message action))
  | Raise e => Raise e
  end.

(** [for unit_id, action in action_results.items()] *)
Fixpoint quorum_loop (hosts : gset atom) (result : Result)
    (action_results : list (string * Action.t)) : res Result :=
  match action_results with
  | [] => Ok result
  | (unit_id, action) :: rest =>
      result' ← quorum_partial hosts result unit_id action;
      quorum_loop hosts result' rest
  end.

(** [CephMon.check_quorum].  [action_results] is what [run_action_on_all]
    returned for [get-quorum-status], in the order of the dictionary. *)
Definition check_quorum (units : list Unit.t)
    (action_results : list (string * Action.t)) : res Result :=
  result ← quorum_loop (affected_hosts units) Result_empty action_results;
  Ok (Result_or result (Result_of OK "Ceph-mon quorum check passed.")).

(** ** The replication number *)

(** [bool(value)] *)
Definition truthy (value : json) : bool :=
  match value with
  | JNull => false
  | JBool b => b
  | JInt z => negb (z =? 0)
  | JStr EmptyString | JArr [] | JObj [] => false
  | JStr _ | JArr _ | JObj _ => true
  end.

(** An operand of the integer subtraction; [bool] is a subclass of [int]. *)
Definition to_int (value : json) : res Z :=
  match value with
  | JInt z => Ok z
  | JBool b => Ok (if b then 1 else 0)
  | _ => Raise TypeError
  end.

(** [pool["size"] - pool["min_size"]] *)
Definition pool_margin (pool : json) : res Z :=
  size ← subscript pool "size";
  min_size ← subscript pool "min_size";
  a ← to_int size;
  b ← to_int min_size;
  Ok (a - b).

(** [for pool in pools], each margin in turn *)
Fixpoint pool_margins (pools : list json) : res (list Z) :=
  match pools with
  | [] => Ok []
  | pool :: rest =>
      margin ← pool_margin pool;
      margins ← pool_margins rest;
      Ok (margin :: margins)
  end.

(** [min(...)]: [ValueError] on an empty sequence. *)
Definition min_of (values : list Z) : res Z :=
  match values with
  | [] => Raise ValueError
  | first :: rest => Ok (foldl Z.min first rest)
  end.

(** [CephCommon.get_replication_number], from the message of the
    [list-pools] action of the ceph-mon unit. *)
Definition get_replication_number (message : option json) : res (option Z) :=
  pools ← json_loads message;
  if truthy pools then
    items ← iterate pools;
    margins ← pool_margins items;
    minimum ← min_of margins;
    Ok (Some minimum)
  else Ok None.

(** [{unit.entity_id for unit in self.units if unit.application == app_name}] *)
Definition units_of (app_name : string) (units : list Unit.t) : gset string :=
  list_to_set
    (map Unit.entity_id
       (List.filter (λ unit, bool_decide (Unit.application unit = app_name))
          units)).

(** [{unit.entity_id for unit in ... if unit.workload_status != "active"}] *)
Definition inactive_units_of (app_units : list Unit.t) : gset string :=
  list_to_set
    (map Unit.entity_id
       (List.filter
          (λ unit, negb (bool_decide (Unit.workload_status unit = "active")))
          app_units)).

Definition replication_message (app_name : string)
    (min_replication_number : Z) (units inactive_units : gset string)
    : string :=
  "The minimum number of replicas in '" +:+ app_name +:+ "' is "
    +:+ pretty min_replication_number
    +:+ " and it's not safe to reboot/shutdown "
    +:+ pretty (size units) +:+ " units. "
    +:+ pretty (size inactive_units) +:+ " units are not active.".

(** The body of the loop of [check_replication_number] for one application
    and the [list-pools] message of its ceph-mon unit.  [applications] is
    [self.model.applications], each application with its units. *)
Definition replication_partial (units : list Unit.t)
    (applications : gmap string (list Unit.t)) (result : Result)
    (app_name : string) (message : option json) : res Result :=
  min_replication_number ← get_replication_number message;
  match min_replication_number with
  | None => Ok result
  | Some min_replication_number =>
      let units := units_of app_name units in
      match applications !! app_name with
      | None => Raise KeyError
      | Some app_units =>
          let inactive_units := inactive_units_of app_units in
          if Z.of_nat (size (units ∪ inactive_units)) >? min_replication_number
          then
            Ok (add_partial_result result FAIL
                  (replication_message app_name min_replication_number
                     units inactive_units))
          else Ok result
      end
  end.

(** [for app_name, ceph_mon_unit in self.ceph_mon_app_map.items()] *)
Fixpoint replication_loop (units : list Unit.t)
    (applications : gmap string (list Unit.t)) (result : Result)
    (ceph_mon_app_map : list (string * option json)) : res Result :=
  match ceph_mon_app_map with
  | [] => Ok result
  | (app_name, message) :: rest =>
      result' ← replication_partial units applications result app_name message;
      replication_loop units applications result' rest
  end.

(** [CephOsd.check_replication_number].  [ceph_mon_app_map] gives, for each
    application in the order of the dictionary, the [list-pools] message of
    the ceph-mon unit related to it. *)
Definition check_replication_number (units : list Unit.t)
    (applications : gmap string (list Unit.t))
    (ceph_mon_app_map : list (string * option json)) : res Result :=
  result ← replication_loop units applications Result_empty ceph_mon_app_map;
  Ok (Result_or result
        (Result_of OK "Minimum replica number check passed.")).

(** ** Running the checks *)

Section Verify.
(** What a check can read and change: the model and the remote units. *)
Variable World : Type.

(** A check: a bound method, with its name and what a call of it does. *)
Record check : Type := mkCheck {
  __name__ : string;
  call : World → res Result * World
}.

(** Modelled from the spec: the message of the FAIL partial that
    [checks_executor] records for a check that raised, carrying the
    identity of the check and the message of the exception. *)
Variable failure_message : string → exn → string.

(** The state of a run: the world and the names of the checks called so
    far, in order. *)
Record run : Type := mkRun {
  world : World;
  called : list string
}.

(** Modelled from the spec: the loop of [checks_executor] of
    [juju_verify/verifiers/result.py], which is not among the sources.
    Each check is called in order; the result of a check is combined into
    the aggregate, an exception becomes a FAIL partial and the next check
    still runs. *)
Fixpoint checks_loop (checks : list check) (result : Result) (s : run)
    : Result * run :=
  match checks with
  | [] => (result, s)
  | c :: rest =>
      let '(outcome, w) := call c (world s) in
      let s' := {| world := w; called := called s ++ [__name__ c] |} in
      match outcome with
      | Ok r => checks_loop rest (combine result r) s'
      | Raise e =>
          checks_loop rest
            (add_partial_result result FAIL
               (failure_message (__name__ c) e)) s'
      end
  end.

(** Modelled from the spec: [checks_executor], called on the checks. *)
Definition checks_executor (checks : list check) (s : run) : Result * run :=
  checks_loop checks Result_empty s.

(** The result that [checks_executor] takes from one check. *)
Definition outcome_result (c : check) (outcome : res Result) : Result :=
  match outcome with
  | Ok r => r
  | Raise e => Result_of FAIL (failure_message (__name__ c) e)
  end.

(** The bound methods [self.check_version], [self.check_quorum] and
    [self.check_ceph_cluster_health] of the ceph-mon verifier.
    [check_version] is
    [check_minimum_version(Version("2.8.10"), self.units)] of
    [BaseVerifier], which is not among the sources. *)
Variables self_check_version self_check_quorum
  self_check_ceph_cluster_health : check.

(** [CephMon.verify_reboot] *)
Definition verify_reboot (s : run) : Result * run :=
  let '(ceph_version, s1) := checks_executor [self_check_version] s in
  if negb (success ceph_version) then (ceph_version, s1)
  else
    let '(others, s2) :=
      checks_executor [self_check_quorum; self_check_ceph_cluster_health] s1 in
    (combine ceph_version others, s2).

(** [CephMon.verify_shutdown] *)
Definition verify_shutdown (s : run) : Result * run := verify_reboot s.
End Verify.

Arguments __name__ {World} _.
Arguments call {World} _ _.
Arguments world {World} _.
Arguments called {World} _.
Arguments mkCheck {World} _ _.
Arguments mkRun {World} _ _.
Arguments outcome_result {World} _ _ _.

(** ** Sample snapshots *)

(** The line feed, [os.linesep] on POSIX. *)
Definition LF : string := String (ascii_of_nat 10) EmptyString.

Definition sample_mon (name : string) : json :=
  JObj [("rank", JInt 0); ("name", JStr name)].

(** A quorum status: the monitors of the monmap and those in the quorum. *)
Definition sample_quorum_status (known online : list string) : json :=
  JObj [("quorum_names", JArr (map JStr online));
        ("monmap",
         JObj [("epoch", JInt 1); ("mons", JArr (map sample_mon known))])].

Definition sample_mon_unit (number hostname : string) : Unit.t :=
  Unit.mk ("ceph-mon/" +:+ number) "ceph-mon" hostname "active".

Definition five_mons : list string := ["a"; "b"; "c"; "d"; "e"].

(** A pool as [list-pools] reports it. *)
Definition sample_pool (name : string) (size min_size : Z) : json :=
  JObj [("pool", JStr name); ("size", JInt size); ("min_size", JInt min_size)].

Definition sample_osd_unit (number workload_status : string) : Unit.t :=
  Unit.mk ("ceph-osd/" +:+ number) "ceph-osd" ("host." +:+ number)
    workload_status.

(** A check that counts, in the world, the calls made, and has a fixed
    outcome. *)
Definition sample_check (name : string) (outcome : res Result) : check nat :=
  mkCheck name (λ calls, (outcome, S calls)).

Definition sample_failure_message (name : string) (e : exn) : string :=
  name +:+ " check failed".

(** ** The groups of a removal request, as the specification describes them *)

(** The parent that [_find_ancestor] follows from [node]: the first node of
    the list that has [node.id] among its children. *)
Definition parent_of (self : CephTree) (node parent : NodeInfo.t) : Prop :=
  List.find (is_child_of node) (_nodes self) = Some parent.

(** [nearest_ancestor self required_type node ancestor]: walking up from
    [node], parent after parent, [ancestor] is the first node met whose type
    is [required_type]. *)
Inductive nearest_ancestor (self : CephTree) (required_type : string)
    : NodeInfo.t → NodeInfo.t → Prop :=
  | nearest_parent node parent :
      parent_of self node parent →
      NodeInfo.type parent = required_type →
      nearest_ancestor self required_type node parent
  | nearest_further node parent ancestor :
      parent_of self node parent →
      NodeInfo.type parent ≠ required_type →
      nearest_ancestor self required_type parent ancestor →
      nearest_ancestor self required_type node ancestor.

(** [no_ancestor self required_type node]: walking up from [node] ends at a
    node without parent before any node of type [required_type] is met. *)
Inductive no_ancestor (self : CephTree) (required_type : string)
    : NodeInfo.t → Prop :=
  | no_parent node :
      List.find (is_child_of node) (_nodes self) = None →
      no_ancestor self required_type node
  | no_ancestor_further node parent :
      parent_of self node parent →
      NodeInfo.type parent ≠ required_type →
      no_ancestor self required_type parent →
      no_ancestor self required_type node.

(** A name together with its host and the ancestor found for it, when both
    are found: the pair (ancestor, host). *)
Definition resolve (limit : nat) (self : CephTree) (required_type : string)
    (name : string) : option (NodeInfo.t * NodeInfo.t) :=
  match _get_node self name with
  | Ok descendent =>
      match _find_ancestor limit self descendent required_type with
      | Ok (Some ancestor) => Some (ancestor, descendent)
      | _ => None
      end
  | Raise _ => None
  end.

Definition resolved (limit : nat) (self : CephTree) (required_type : string)
    (names : list string) : list (NodeInfo.t * NodeInfo.t) :=
  omap (resolve limit self required_type) names.

(** The ancestors of the names of a request. *)
Definition ancestors_of (limit : nat) (self : CephTree)
    (required_type : string) (names : list string) : list NodeInfo.t :=
  (resolved limit self required_type names).*1.

(** The group of an ancestor: the hosts of the request under it, one per
    occurrence of a name. *)
Definition hosts_under (limit : nat) (self : CephTree)
    (required_type : string) (names : list string) (ancestor : NodeInfo.t)
    : list NodeInfo.t :=
  (filter (λ p, p.1 = ancestor) (resolved limit self required_type names)).*2.

(** The value of a key in the association list. *)
Fixpoint ancestors_map_get (ancestor : NodeInfo.t)
    (ancestors_map : list (NodeInfo.t * list NodeInfo.t))
    : option (list NodeInfo.t) :=
  match ancestors_map with
  | [] => None
  | (key, descendents) :: rest =>
      if decide (key = ancestor) then Some descendents
      else ancestors_map_get ancestor rest
  end.

(** A name that [_get_node] resolves to a node of type host. *)
Definition is_host_name (self : CephTree) (name : string) : Prop :=
  ∃ node, _get_node self name = Ok node ∧ NodeInfo.type node = "host".

(** The dictionary of the first loop after the pairs (ancestor, host) were
    appended in order. *)
Definition grouped (pairs : list (NodeInfo.t * NodeInfo.t))
    (ancestors_map : list (NodeInfo.t * list NodeInfo.t))
    : list (NodeInfo.t * list NodeInfo.t) :=
  foldl (λ m p, ancestors_map_append p.1 p.2 m) ancestors_map pairs.

(** The hosts paired with an ancestor, in order. *)
Definition group_of (a : NodeInfo.t) (pairs : list (NodeInfo.t * NodeInfo.t))
    : list NodeInfo.t :=
  (filter (λ p, p.1 = a) pairs).*2.

(** What one unit adds to the result of [check_quorum]. *)
Definition quorum_contribution (hosts : gset atom) (unit_id : string)
    (action : Action.t) (partial : Severity * string) : Prop :=
  match _parse_quorum_status action with
  | Ok (mon_count, online) =>
      (size (online ∖ hosts) ≤ mon_count / 2)%nat
      ∧ partial = (FAIL, quorum_lost_message unit_id)
  | Raise JSONDecodeError | Raise KeyError =>
      partial = (FAIL, quorum_parse_failed_message action)
  | Raise _ => False
  end.

(** A pool record with integer [size] and [min_size]. *)
Definition is_pool (item : json) (pool : Z * Z) : Prop :=
  subscript item "size" = Ok (JInt pool.1)
  ∧ subscript item "min_size" = Ok (JInt pool.2).

(** ** The rest of the tree and of the verifiers *)

(** [NodeInfo.__str__]: [f"{self.type_id}-{self.name}({self.id})"] *)
Definition NodeInfo___str__ (self : NodeInfo.t) : string :=
  pretty (NodeInfo.type_id self) +:+ "-" +:+ NodeInfo.name self
    +:+ "(" +:+ pretty (NodeInfo.id self) +:+ ")".

(** One step of a stable sort by decreasing [type_id]: [node], which came
    before every node of [sorted_nodes] in the list to sort, is put before
    the first node whose [type_id] is not greater than its own. *)
Fixpoint insert_by_type_id (node : NodeInfo.t)
    (sorted_nodes : list NodeInfo.t) : list NodeInfo.t :=
  match sorted_nodes with
  | [] => [node]
  | other :: rest =>
      if NodeInfo.type_id other <=? NodeInfo.type_id node
      then node :: other :: rest
      else other :: insert_by_type_id node rest
  end.

(** [sorted(self._nodes, key=lambda node: node.type_id, reverse=True)]:
    the sort is stable, also in reverse. *)
Definition sorted_by_type_id (nodes : list NodeInfo.t) : list NodeInfo.t :=
  foldr insert_by_type_id [] nodes.

(** [separator.join(items)] *)
Fixpoint str_join (separator : string) (items : list string) : string :=
  match items with
  | [] => ""
  | [item] => item
  | item :: rest => item +:+ separator +:+ str_join separator rest
  end.

(** [CephTree.__str__] *)
Definition CephTree___str__ (self : CephTree) : string :=
  str_join "," (map NodeInfo___str__ (sorted_by_type_id (_nodes self))).

(** [CephTree.__eq__], for another [CephTree]. *)
Definition CephTree___eq__ (self other : CephTree) : bool :=
  bool_decide (_nodes self = _nodes other).

(** [d[key] = value] on a dictionary, kept as the list of its items in
    insertion order: the value of a key that is present is replaced where
    it is, a new key is added at the end. *)
Fixpoint dict_setitem {K V : Type} `{EqDecision K} (key : K) (value : V)
    (d : list (K * V)) : list (K * V) :=
  match d with
  | [] => [(key, value)]
  | (k, v) :: rest =>
      if decide (k = key) then (k, value) :: rest
      else (k, v) :: dict_setitem key value rest
  end.

(** [{key: value for ...}]: the items are set in order. *)
Definition dict_of {K V : Type} `{EqDecision K} (items : list (K * V))
    : list (K * V) :=
  foldl (λ d item, dict_setitem item.1 item.2 d) [] items.

(** [CephOsd.REPLICATION_RULE] *)
Definition REPLICATION_RULE : string := "host".

(** [CephOsd.ancestor_node_type], for a replication rule. *)
Definition ancestor_node_type (replication_rule : string) : string :=
  if decide (replication_rule = "host") then "root" else replication_rule.

(** [{unit.entity_id: unit.machine.hostname for unit in self.units
      if unit.application == ceph_osd_app}] *)
Definition units_hostnames (ceph_osd_app : string) (units : list Unit.t)
    : list (string * string) :=
  dict_of
    (map (λ unit, (Unit.entity_id unit, Unit.machine_hostname unit))
       (List.filter
          (λ unit, bool_decide (Unit.application unit = ceph_osd_app))
          units)).

Definition availability_zone_message (units : list (string * string))
    (ceph_tree : CephTree) : string :=
  "It's not safe to reboot/shutdown unit(s) " +:+ str_join ", " units.*1
    +:+ " in the availability zone '" +:+ CephTree___str__ ceph_tree +:+ "'.".

(** The body of the loop of [check_availability_zone] for one application
    and its tree.  An exception of [can_remove_host_node] is not caught. *)
Definition availability_zone_partial (limit : nat) (units : list Unit.t)
    (result : Result) (ceph_osd_app : string) (ceph_tree : CephTree)
    : res Result :=
  let units := units_hostnames ceph_osd_app units in
  can_remove ←
    can_remove_host_node limit ceph_tree units.*2
      (ancestor_node_type REPLICATION_RULE);
  if negb can_remove
  then Ok (combine result
             (Result_of FAIL (availability_zone_message units ceph_tree)))
  else Ok result.

(** [for ceph_osd_app, ceph_tree in self.ceph_tree_map.items()] *)
Fixpoint availability_zone_loop (limit : nat) (units : list Unit.t)
    (result : Result) (ceph_tree_map : list (string * CephTree))
    : res Result :=
  match ceph_tree_map with
  | [] => Ok result
  | (ceph_osd_app, ceph_tree) :: rest =>
      result' ←
        availability_zone_partial limit units result ceph_osd_app ceph_tree;
      availability_zone_loop limit units result' rest
  end.

(** [CephOsd.check_availability_zone].  [ceph_tree_map] is the dictionary of
    the trees, one for each application, in its order. *)
Definition check_availability_zone (limit : nat) (units : list Unit.t)
    (ceph_tree_map : list (string * CephTree)) : res Result :=
  result ← availability_zone_loop limit units Result_empty ceph_tree_map;
  Ok (Result_or result (Result_of OK "Availability zone check passed.")).

(** [app_map = {unit.application: unit for unit in self.units}] and
    [app_map.values()] of [CephMon.check_ceph_cluster_health]: one unit for
    each application. *)
Definition unique_app_units (units : list Unit.t) : list Unit.t :=
  (dict_of (map (λ unit, (Unit.application unit, unit)) units)).*2.



(** A quorum status of the expected shape: the names of the monitors of the
    monmap are [known], the names in the quorum are [online]. *)
Definition well_formed_quorum_status (quorum_status : json)
    (known online : list string) : Prop :=
  ∃ members monmap_members mons,
    quorum_status = JObj members
    ∧ dict_get "monmap" members = Some (JObj monmap_members)
    ∧ dict_get "mons" monmap_members = Some (JArr mons)
    ∧ Forall2 (λ mon name, subscript mon "name" = Ok (JStr name)) mons known
    ∧ dict_get "quorum_names" members = Some (JArr (map JStr online)).

(** A unit whose quorum status parses and leaves a majority of the known
    monitors online without the hosts. *)
Definition keeps_quorum (hosts : gset atom) (action : Action.t) : Prop :=
  ∃ mon_count online,
    _parse_quorum_status action = Ok (mon_count, online)
    ∧ (mon_count / 2 < size (online ∖ hosts))%nat.

(** The units of an application to remove or inactive are within the
    replication margin of its pools, when it has pools. *)
Definition within_margin (units : list Unit.t)
    (applications : gmap string (list Unit.t)) (app_name : string)
    (message : option json) : Prop :=
  ∀ margin app_units,
    get_replication_number message = Ok (Some margin) →
    applications !! app_name = Some app_units →
    Z.of_nat (size (units_of app_name units ∪ inactive_units_of app_units))
    ≤ margin.

(** The hosts of the units of an application can be removed from its
    tree. *)
Definition zone_is_safe (limit : nat) (units : list Unit.t)
    (ceph_osd_app : string) (ceph_tree : CephTree) : Prop :=
  can_remove_host_node limit ceph_tree
    (units_hostnames ceph_osd_app units).*2
    (ancestor_node_type REPLICATION_RULE) = Ok true.

(** * Properties *)

(** ** Outcomes *)

Lemma raises_not_Ok {A : Type} (m : res A) (a : A) : raises m → m ≠ Ok a.
Proof. intros [e ->]. discriminate. Qed.

Lemma not_Ok_raises {A : Type} (m : res A) : (∀ a, m ≠ Ok a) → raises m.
Proof.
  destruct m as [a|e]; intros H.
  - destruct (H a eq_refl).
  - exists e. reflexivity.
Qed.

Lemma bind_Ok {A B : Type} (m : res A) (k : A → res B) (b : B) :
  m ≫= k = Ok b ↔ ∃ a, m = Ok a ∧ k a = Ok b.
Proof.
  destruct m as [a|e]; simpl.
  - split; [eauto | intros (a' & [= <-] & H); exact H].
  - split; [discriminate | intros (a' & [=] & _)].
Qed.

(** ** [_find_ancestor] *)

Lemma parent_of_child (self : CephTree) (node parent : NodeInfo.t) :
  parent_of self node parent →
  parent ∈ _nodes self ∧
  ∃ ids, NodeInfo.children parent = Some ids ∧ NodeInfo.id node ∈ ids.
Proof.
  unfold parent_of. intros H. apply find_some in H as [Hin Hc]. split.
  - apply list_elem_of_In, Hin.
  - unfold is_child_of in Hc.
    destruct (NodeInfo.children parent) as [[|i ids]|]; try discriminate.
    exists (i :: ids). split; [reflexivity|].
    apply bool_decide_eq_true in Hc. exact Hc.
Qed.

Lemma _find_ancestor_found (limit : nat) (self : CephTree)
    (node ancestor : NodeInfo.t) (required_type : string) :
  _find_ancestor limit self node required_type = Ok (Some ancestor) →
  nearest_ancestor self required_type node ancestor.
Proof.
  revert node. induction limit as [|limit IH]; intros node; simpl.
  - discriminate.
  - destruct (List.find _ _) as [parent|] eqn:Hfind; [|discriminate].
    destruct (decide (NodeInfo.type parent ≠ required_type)) as [Hne|Heq].
    + intros H. eapply nearest_further; eauto.
    + intros [= <-]. apply nearest_parent; [exact Hfind|].
      destruct (decide (NodeInfo.type parent = required_type)); tauto.
Qed.

Lemma _find_ancestor_absent (limit : nat) (self : CephTree)
    (node : NodeInfo.t) (required_type : string) :
  _find_ancestor limit self node required_type = Ok None →
  no_ancestor self required_type node.
Proof.
  revert node. induction limit as [|limit IH]; intros node; simpl.
  - discriminate.
  - destruct (List.find _ _) as [parent|] eqn:Hfind.
    + destruct (decide (NodeInfo.type parent ≠ required_type)) as [Hne|Heq].
      * intros H. eapply no_ancestor_further; eauto.
      * discriminate.
    + intros _. apply no_parent, Hfind.
Qed.

(** A larger limit does not change a result that was reached. *)
Lemma _find_ancestor_mono (limit limit' : nat) (self : CephTree)
    (node : NodeInfo.t) (required_type : string) (r : option NodeInfo.t) :
  (limit ≤ limit')%nat →
  _find_ancestor limit self node required_type = Ok r →
  _find_ancestor limit' self node required_type = Ok r.
Proof.
  revert limit' node.
  induction limit as [|limit IH]; intros limit' node Hle; simpl.
  - discriminate.
  - destruct limit' as [|limit']; [lia|]. simpl.
    destruct (List.find _ _) as [parent|]; [|auto].
    destruct (decide _); [|auto]. apply IH. lia.
Qed.

Lemma nearest_ancestor_found (self : CephTree) (required_type : string)
    (node ancestor : NodeInfo.t) :
  nearest_ancestor self required_type node ancestor →
  ∃ limit, _find_ancestor limit self node required_type = Ok (Some ancestor).
Proof.
  induction 1 as [node parent Hp Ht|node parent ancestor Hp Ht _ [limit IH]].
  - exists 1%nat. simpl. rewrite Hp.
    rewrite decide_False by (intros Hn; exact (Hn Ht)). reflexivity.
  - exists (S limit). simpl. rewrite Hp.
    rewrite decide_True by exact Ht. exact IH.
Qed.

Lemma no_ancestor_absent (self : CephTree) (required_type : string)
    (node : NodeInfo.t) :
  no_ancestor self required_type node →
  ∃ limit, _find_ancestor limit self node required_type = Ok None.
Proof.
  induction 1 as [node Hp|node parent Hp Ht _ [limit IH]].
  - exists 1%nat. simpl. rewrite Hp. reflexivity.
  - exists (S limit). simpl. rewrite Hp.
    rewrite decide_True by exact Ht. exact IH.
Qed.

(** ** [can_remove_host_node]: when it returns *)

Lemma all_names_are_hosts_true (self : CephTree) (names : list string) :
  all_names_are_hosts self names = Ok true ↔ Forall (is_host_name self) names.
Proof.
  induction names as [|name rest IH]; simpl.
  - split; [constructor | reflexivity].
  - rewrite Forall_cons, <- IH. unfold is_host_name.
    destruct (_get_node self name) as [node|e]; simpl.
    + destruct (decide (NodeInfo.type node = "host")) as [Ht|Ht].
      * split; [eauto | tauto].
      * split; [discriminate | intros [(n & [= <-] & Hn) _]; contradiction].
    + split; [discriminate | intros [(n & [=] & _) _]].
Qed.

Lemma find_ancestors_Ok (limit : nat) (self : CephTree)
    (required_type : string) (names : list string)
    (m m' : list (NodeInfo.t * list NodeInfo.t)) :
  find_ancestors limit self required_type names m = Ok m' ↔
  Forall (λ name, is_Some (resolve limit self required_type name)) names
  ∧ m' = grouped (resolved limit self required_type names) m.
Proof.
  revert m. induction names as [|name rest IH]; intros m; simpl.
  - split.
    + intros [= <-]. split; [constructor | reflexivity].
    + intros [_ ->]. reflexivity.
  - rewrite Forall_cons. unfold resolved, resolve at 1 3. simpl.
    destruct (_get_node self name) as [descendent|e]; simpl.
    + destruct (_find_ancestor limit self descendent required_type)
        as [[ancestor|]|e]; simpl.
      * rewrite IH. unfold resolved. intuition eauto.
      * split; [discriminate | intros [[[? [=]] _] _]].
      * split; [discriminate | intros [[[? [=]] _] _]].
    + split; [discriminate | intros [[[? [=]] _] _]].
Qed.

Lemma can_remove_host_node_Ok (limit : nat) (self : CephTree)
    (names : list string) (required_type : string) (b : bool) :
  can_remove_host_node limit self names required_type = Ok b ↔
  required_type ∈ SUPPORTED_ANCESTOR_TYPES
  ∧ Forall (is_host_name self) names
  ∧ Forall (λ name, is_Some (resolve limit self required_type name)) names
  ∧ b = check_ancestors (grouped (resolved limit self required_type names) []).
Proof.
  unfold can_remove_host_node.
  destruct (decide (required_type ∉ SUPPORTED_ANCESTOR_TYPES)) as [Hn|Hs].
  { split; [discriminate | tauto]. }
  apply dec_stable in Hs.
  rewrite <- all_names_are_hosts_true.
  destruct (all_names_are_hosts self names) as [[|]|e]; simpl.
  - destruct (find_ancestors limit self required_type names [])
      as [m|e] eqn:Hm; simpl.
    + apply find_ancestors_Ok in Hm as [Hall ->].
      split; [intros [= <-]; auto | intros (_ & _ & _ & ->); reflexivity].
    + split; [discriminate|]. intros (_ & _ & Hall & _).
      assert (find_ancestors limit self required_type names [] =
              Ok (grouped (resolved limit self required_type names) []))
        as Hok by (apply find_ancestors_Ok; auto).
      congruence.
  - split; [discriminate | intros (_ & [=] & _)].
  - split; [discriminate | intros (_ & [=] & _)].
Qed.

(** C10: with no name at all and a supported ancestor type,
    [can_remove_host_node] returns [True] on every tree, whatever the
    recursion limit: nothing is resolved and no group is tested. *)
Theorem can_remove_host_node_no_names (limit : nat) (self : CephTree)
    (required_ancestor_type : string) :
  required_ancestor_type ∈ SUPPORTED_ANCESTOR_TYPES →
  can_remove_host_node limit self [] required_ancestor_type = Ok true.
Proof.
  intros Hs. unfold can_remove_host_node.
  rewrite decide_False by (intros Hn; exact (Hn Hs)). reflexivity.
Qed.

Lemma can_remove_host_node_no_names_witness :
  "rack" ∈ SUPPORTED_ANCESTOR_TYPES
  ∧ can_remove_host_node 0 chain_tree [] "rack" = Ok true.
Proof.
  assert ("rack" ∈ SUPPORTED_ANCESTOR_TYPES) as Hs by compute_done.
  split; [exact Hs|].
  exact (can_remove_host_node_no_names 0 chain_tree "rack" Hs).
Defined.

(** C6: [_find_ancestor] returns the nearest ancestor of the required type
    on the way up from the node, and [None] exactly when the way up ends
    before such a node is met.  On the tree root(-1) -> rack(-2) ->
    host(-4) -> osd(0): the ancestor of the host of type root is the root,
    the one of type rack is the rack, and the root has no ancestor of type
    root. *)
Theorem _find_ancestor_nearest :
  (∀ self required_type node ancestor,
     nearest_ancestor self required_type node ancestor ↔
     ∃ limit,
       _find_ancestor limit self node required_type = Ok (Some ancestor))
  ∧ (∀ self required_type node,
       no_ancestor self required_type node ↔
       ∃ limit, _find_ancestor limit self node required_type = Ok None)
  ∧ (∀ limit, (2 ≤ limit)%nat →
       _find_ancestor limit chain_tree chain_host "root" = Ok (Some chain_root))
  ∧ (∀ limit, (1 ≤ limit)%nat →
       _find_ancestor limit chain_tree chain_host "rack" = Ok (Some chain_rack))
  ∧ (∀ limit, (1 ≤ limit)%nat →
       _find_ancestor limit chain_tree chain_root "root" = Ok None).
Proof.
  repeat split.
  - apply nearest_ancestor_found.
  - intros [limit H]. eapply _find_ancestor_found, H.
  - apply no_ancestor_absent.
  - intros [limit H]. eapply _find_ancestor_absent, H.
  - intros [|[|limit]] H; [lia|lia|reflexivity].
  - intros [|limit] H; [lia|reflexivity].
  - intros [|limit] H; [lia|reflexivity].
Qed.

Lemma _find_ancestor_nearest_witness :
  _find_ancestor 1000 chain_tree chain_host "root" = Ok (Some chain_root)
  ∧ _find_ancestor 1000 chain_tree chain_host "rack" = Ok (Some chain_rack)
  ∧ _find_ancestor 1000 chain_tree chain_root "root" = Ok None
  ∧ nearest_ancestor chain_tree "root" chain_host chain_root
  ∧ no_ancestor chain_tree "root" chain_root.
Proof.
  destruct _find_ancestor_nearest as (Hn & Ha & Hroot & Hrack & Hnone).
  split; [apply Hroot; lia|].
  split; [apply Hrack; lia|].
  split; [apply Hnone; lia|].
  split.
  - apply Hn. exists 2%nat. reflexivity.
  - apply Ha. exists 1%nat. reflexivity.
Defined.

(** C5: [can_remove_host_node] raises, and so never answers [True], when
    the required ancestor type is not a supported one, when one of the
    names is unknown or names a node that is not a host, or when for one
    of the hosts no ancestor of the required type is found. *)
Theorem can_remove_host_node_raises (limit : nat) (self : CephTree)
    (names : list string) (required_ancestor_type : string) :
  required_ancestor_type ∉ SUPPORTED_ANCESTOR_TYPES
  ∨ (∃ name, name ∈ names ∧
       (raises (_get_node self name) ∨
        ∃ node, _get_node self name = Ok node ∧ NodeInfo.type node ≠ "host"))
  ∨ (∃ name descendent, name ∈ names ∧
       _get_node self name = Ok descendent ∧
       ∀ ancestor,
         _find_ancestor limit self descendent required_ancestor_type
         ≠ Ok (Some ancestor)) →
  raises (can_remove_host_node limit self names required_ancestor_type)
  ∧ can_remove_host_node limit self names required_ancestor_type ≠ Ok true.
Proof.
  intros H.
  assert (∀ b, can_remove_host_node limit self names required_ancestor_type
               ≠ Ok b) as Hno.
  { intros b Hb. apply can_remove_host_node_Ok in Hb
      as (Hs & Hhosts & Hres & _).
    destruct H as [Hn|[(name & Hin & Hbad)|(name & d & Hin & Hd & Hnone)]].
    - exact (Hn Hs).
    - rewrite Forall_forall in Hhosts.
      destruct (Hhosts name Hin) as (node & Hnode & Ht).
      destruct Hbad as [[e He]|(node' & Hnode' & Ht')]; congruence.
    - rewrite Forall_forall in Hres.
      destruct (Hres name Hin) as [p Hp]. unfold resolve in Hp.
      rewrite Hd in Hp.
      destruct (_find_ancestor limit self d required_ancestor_type)
        as [[a|]|e]; try discriminate.
      exact (Hnone a eq_refl). }
  split; [apply not_Ok_raises, Hno | apply Hno].
Qed.

Lemma can_remove_host_node_raises_witness :
  raises (can_remove_host_node 1000 chain_tree ["host.0"; "rack.0"] "root")
  ∧ raises (can_remove_host_node 1000 chain_tree ["host.0"] "host")
  ∧ raises (can_remove_host_node 1000 chain_tree ["host.0"; "host.9"] "root")
  ∧ raises (can_remove_host_node 1000 chain_tree ["host.0"] "region").
Proof.
  repeat split.
  - apply (can_remove_host_node_raises 1000 chain_tree).
    right. left. exists "rack.0". split; [compute_done|].
    right. exists chain_rack. split; [reflexivity | discriminate].
  - apply (can_remove_host_node_raises 1000 chain_tree).
    left. compute_done.
  - apply (can_remove_host_node_raises 1000 chain_tree).
    right. left. exists "host.9". split; [compute_done|].
    left. exists KeyError. reflexivity.
  - apply (can_remove_host_node_raises 1000 chain_tree).
    right. right. exists "host.0", chain_host.
    split; [compute_done|]. split; [reflexivity | discriminate].
Defined.

(** ** The groups built by the first loop *)

Lemma ancestors_map_get_append (a k d : NodeInfo.t)
    (m : list (NodeInfo.t * list NodeInfo.t)) :
  ancestors_map_get a (ancestors_map_append k d m) =
  if decide (k = a)
  then Some (default [] (ancestors_map_get a m) ++ [d])
  else ancestors_map_get a m.
Proof.
  induction m as [|[key ds] m IH]; simpl.
  - destruct (decide (k = a)); reflexivity.
  - destruct (decide (key = k)) as [->|Hk]; simpl.
    + destruct (decide (k = a)); reflexivity.
    + destruct (decide (key = a)) as [->|Ha].
      * rewrite decide_False by congruence. reflexivity.
      * exact IH.
Qed.

Lemma ancestors_map_append_keys (k d : NodeInfo.t)
    (m : list (NodeInfo.t * list NodeInfo.t)) :
  (ancestors_map_append k d m).*1 =
  if decide (k ∈ m.*1) then m.*1 else m.*1 ++ [k].
Proof.
  induction m as [|[key ds] m IH]; [reflexivity|].
  cbn [ancestors_map_append]. rewrite fmap_cons. cbn [fst].
  destruct (decide (key = k)) as [->|Hk]; rewrite fmap_cons; cbn [fst].
  - rewrite decide_True by apply list_elem_of_here. reflexivity.
  - rewrite IH. destruct (decide (k ∈ m.*1)) as [Hin|Hin].
    + rewrite decide_True by (apply list_elem_of_further, Hin). reflexivity.
    + rewrite decide_False; [reflexivity|].
      rewrite elem_of_cons. intros [->|?]; congruence.
Qed.

Lemma ancestors_map_append_NoDup (k d : NodeInfo.t)
    (m : list (NodeInfo.t * list NodeInfo.t)) :
  NoDup m.*1 → NoDup (ancestors_map_append k d m).*1.
Proof.
  intros Hm. rewrite ancestors_map_append_keys.
  destruct (decide (k ∈ m.*1)) as [Hin|Hin]; [exact Hm|].
  apply NoDup_app. split; [exact Hm|]. split.
  - intros x Hx Hk. apply list_elem_of_singleton in Hk as ->. exact (Hin Hx).
  - apply NoDup_singleton.
Qed.

Lemma grouped_NoDup (pairs : list (NodeInfo.t * NodeInfo.t))
    (m : list (NodeInfo.t * list NodeInfo.t)) :
  NoDup m.*1 → NoDup (grouped pairs m).*1.
Proof.
  unfold grouped. revert m.
  induction pairs as [|p pairs IH]; intros m Hm; simpl; [exact Hm|].
  apply IH, ancestors_map_append_NoDup, Hm.
Qed.

Lemma ancestors_map_get_elem_of (a : NodeInfo.t) (ds : list NodeInfo.t)
    (m : list (NodeInfo.t * list NodeInfo.t)) :
  NoDup m.*1 → (a, ds) ∈ m ↔ ancestors_map_get a m = Some ds.
Proof.
  induction m as [|[key ds'] m IH]; simpl; intros Hm.
  - split; [intros H; inversion H | discriminate].
  - apply NoDup_cons in Hm as [Hkey Hm]. rewrite elem_of_cons.
    destruct (decide (key = a)) as [->|Ha].
    + split.
      * intros [[= ->]|Hin]; [reflexivity|].
        destruct Hkey. apply list_elem_of_fmap. exists (a, ds). auto.
      * intros [= ->]. left. reflexivity.
    + rewrite <- (IH Hm). split.
      * intros [[= -> ->]|Hin]; [congruence | exact Hin].
      * intros Hin. right. exact Hin.
Qed.

Lemma group_of_cons (a : NodeInfo.t) (p : NodeInfo.t * NodeInfo.t)
    (pairs : list (NodeInfo.t * NodeInfo.t)) :
  group_of a (p :: pairs) =
  if decide (p.1 = a) then p.2 :: group_of a pairs else group_of a pairs.
Proof.
  unfold group_of. rewrite filter_cons.
  destruct (decide (p.1 = a)); reflexivity.
Qed.

Lemma group_of_nil_iff (a : NodeInfo.t)
    (pairs : list (NodeInfo.t * NodeInfo.t)) :
  group_of a pairs = [] ↔ a ∉ pairs.*1.
Proof.
  induction pairs as [|p pairs IH]; simpl.
  - split; [intros _; apply not_elem_of_nil | reflexivity].
  - rewrite group_of_cons, not_elem_of_cons.
    destruct (decide (p.1 = a)) as [Hp|Hp].
    + split; [discriminate | intros [Hne _]; congruence].
    + rewrite IH. split; [intros H; split; [congruence | exact H] | tauto].
Qed.

Lemma ancestors_map_get_grouped (a : NodeInfo.t)
    (pairs : list (NodeInfo.t * NodeInfo.t))
    (m : list (NodeInfo.t * list NodeInfo.t)) :
  ancestors_map_get a (grouped pairs m) =
  if decide (group_of a pairs = [])
  then ancestors_map_get a m
  else Some (default [] (ancestors_map_get a m) ++ group_of a pairs).
Proof.
  unfold grouped. revert m. induction pairs as [|p pairs IH]; intros m; simpl.
  - reflexivity.
  - rewrite IH, ancestors_map_get_append, group_of_cons.
    destruct (decide (p.1 = a)) as [Hp|Hp]; simpl.
    + destruct (decide (group_of a pairs = [])) as [->|_]; [reflexivity|].
      rewrite <- app_assoc. reflexivity.
    + reflexivity.
Qed.

(** The groups of the dictionary are the groups of the specification. *)
Lemma grouped_elem_of (a : NodeInfo.t) (ds : list NodeInfo.t)
    (pairs : list (NodeInfo.t * NodeInfo.t)) :
  (a, ds) ∈ grouped pairs [] ↔ a ∈ pairs.*1 ∧ ds = group_of a pairs.
Proof.
  rewrite ancestors_map_get_elem_of by (apply grouped_NoDup, NoDup_nil_2).
  rewrite ancestors_map_get_grouped. simpl.
  destruct (decide (group_of a pairs = [])) as [Hnil|Hnil].
  - apply group_of_nil_iff in Hnil. split; [discriminate | tauto].
  - assert (a ∈ pairs.*1) as Hin.
    { destruct (decide (a ∈ pairs.*1)) as [?|Hn]; [assumption|].
      apply group_of_nil_iff in Hn. contradiction. }
    split; [intros [= <-]; auto | intros [_ ->]; reflexivity].
Qed.

Lemma check_ancestors_forallb (m : list (NodeInfo.t * list NodeInfo.t)) :
  check_ancestors m = forallb (λ g, negb (lack_of_space g.1 g.2)) m.
Proof.
  induction m as [|[a ds] m IH]; simpl; [reflexivity|].
  destruct (lack_of_space a ds); simpl; [reflexivity | exact IH].
Qed.

Lemma check_ancestors_true (m : list (NodeInfo.t * list NodeInfo.t)) :
  check_ancestors m = true ↔
  ∀ a ds, (a, ds) ∈ m → lack_of_space a ds = false.
Proof.
  rewrite check_ancestors_forallb, forallb_forall. split.
  - intros H a ds Hin. apply list_elem_of_In, H in Hin.
    apply negb_true_iff in Hin. exact Hin.
  - intros H [a ds] Hin. apply negb_true_iff, H, list_elem_of_In, Hin.
Qed.

Lemma check_grouped_true (pairs : list (NodeInfo.t * NodeInfo.t)) :
  check_ancestors (grouped pairs []) = true ↔
  ∀ a, a ∈ pairs.*1 → lack_of_space a (group_of a pairs) = false.
Proof.
  rewrite check_ancestors_true. split.
  - intros H a Hin. apply H, grouped_elem_of. auto.
  - intros H a ds Hin. apply grouped_elem_of in Hin as [Hin ->]. auto.
Qed.

(** ** Permutations of the names *)

Lemma sum_Permutation (l l' : list Z) : l ≡ₚ l' → sum l = sum l'.
Proof.
  unfold sum. induction 1; simpl; lia.
Qed.

Lemma lack_of_space_Permutation (a : NodeInfo.t) (ds ds' : list NodeInfo.t) :
  ds ≡ₚ ds' → lack_of_space a ds = lack_of_space a ds'.
Proof.
  intros H. unfold lack_of_space.
  rewrite (sum_Permutation (map NodeInfo.kb_used ds)
             (map NodeInfo.kb_used ds')) by (apply Permutation_map, H).
  rewrite (sum_Permutation (map NodeInfo.kb_avail ds)
             (map NodeInfo.kb_avail ds')) by (apply Permutation_map, H).
  reflexivity.
Qed.

Lemma group_of_Permutation (a : NodeInfo.t)
    (pairs pairs' : list (NodeInfo.t * NodeInfo.t)) :
  pairs ≡ₚ pairs' → group_of a pairs ≡ₚ group_of a pairs'.
Proof. intros H. unfold group_of. rewrite H. reflexivity. Qed.

Lemma resolved_Permutation (limit : nat) (self : CephTree)
    (required_type : string) (names names' : list string) :
  names ≡ₚ names' →
  resolved limit self required_type names
  ≡ₚ resolved limit self required_type names'.
Proof. intros H. unfold resolved. rewrite H. reflexivity. Qed.

Lemma check_grouped_Permutation
    (pairs pairs' : list (NodeInfo.t * NodeInfo.t)) :
  pairs ≡ₚ pairs' →
  check_ancestors (grouped pairs []) = check_ancestors (grouped pairs' []).
Proof.
  intros H.
  assert (∀ ps ps' : list (NodeInfo.t * NodeInfo.t), ps ≡ₚ ps' →
          check_ancestors (grouped ps []) = true →
          check_ancestors (grouped ps' []) = true) as Himp.
  { intros ps ps' Hp. rewrite !check_grouped_true. intros Hs a Hin.
    rewrite <- (lack_of_space_Permutation a (group_of a ps))
      by (apply group_of_Permutation, Hp).
    apply Hs. rewrite Hp. exact Hin. }
  destruct (check_ancestors (grouped pairs [])) eqn:E.
  - symmetry. apply (Himp pairs pairs' H E).
  - destruct (check_ancestors (grouped pairs' [])) eqn:E'; [|reflexivity].
    symmetry in H. rewrite (Himp pairs' pairs H E') in E. discriminate.
Qed.

(** ** [can_remove_host_node]: the answer *)

Lemma resolve_Some (limit : nat) (self : CephTree) (required_type : string)
    (name : string) (a d : NodeInfo.t) :
  resolve limit self required_type name = Some (a, d) ↔
  _get_node self name = Ok d
  ∧ _find_ancestor limit self d required_type = Ok (Some a).
Proof.
  unfold resolve. destruct (_get_node self name) as [d'|e].
  - destruct (_find_ancestor limit self d' required_type)
      as [[a'|]|e] eqn:Ha.
    + split; [intros [= <- <-]; auto|].
      intros [[= <-] Ha']. rewrite Ha in Ha'. congruence.
    + split; [discriminate|]. intros [[= <-] Ha']. congruence.
    + split; [discriminate|]. intros [[= <-] Ha']. congruence.
  - split; [discriminate | intros [[=] _]].
Qed.

(** The hosts under an ancestor are the hosts of the names whose ancestor
    it is. *)
Lemma hosts_under_elem_of (limit : nat) (self : CephTree)
    (required_type : string) (names : list string) (a d : NodeInfo.t) :
  d ∈ hosts_under limit self required_type names a ↔
  ∃ name, name ∈ names ∧ _get_node self name = Ok d
          ∧ _find_ancestor limit self d required_type = Ok (Some a).
Proof.
  unfold hosts_under, resolved. rewrite list_elem_of_fmap. split.
  - intros ([a' d'] & -> & Hin). apply list_elem_of_filter in Hin as [Ha Hin].
    simpl in Ha. subst a'. apply list_elem_of_omap in Hin as (name & Hin & Hr).
    apply resolve_Some in Hr. exists name. tauto.
  - intros (name & Hin & Hd & Ha). exists (a, d). split; [reflexivity|].
    apply list_elem_of_filter. split; [reflexivity|].
    apply list_elem_of_omap. exists name. split; [exact Hin|].
    apply resolve_Some. auto.
Qed.

Lemma ancestors_of_elem_of (limit : nat) (self : CephTree)
    (required_type : string) (names : list string) (a : NodeInfo.t) :
  a ∈ ancestors_of limit self required_type names ↔
  ∃ name d, name ∈ names ∧ _get_node self name = Ok d
            ∧ _find_ancestor limit self d required_type = Ok (Some a).
Proof.
  unfold ancestors_of, resolved. rewrite list_elem_of_fmap. split.
  - intros ([a' d] & -> & Hin). apply list_elem_of_omap in Hin as (name & Hin & Hr).
    apply resolve_Some in Hr. exists name, d. tauto.
  - intros (name & d & Hin & Hd & Ha). exists (a, d). split; [reflexivity|].
    apply list_elem_of_omap. exists name. split; [exact Hin|].
    apply resolve_Some. auto.
Qed.

Lemma lack_of_space_le (ancestor : NodeInfo.t) (descendents : list NodeInfo.t) :
  lack_of_space ancestor descendents = true ↔
  NodeInfo.kb_avail ancestor - sum (map NodeInfo.kb_avail descendents)
  ≤ sum (map NodeInfo.kb_used descendents).
Proof. unfold lack_of_space. apply Z.leb_le. Qed.

Lemma can_remove_host_node_true (limit : nat) (self : CephTree)
    (names : list string) (required_type : string) (b : bool) :
  can_remove_host_node limit self names required_type = Ok b →
  b = true ↔
  ∀ a, a ∈ ancestors_of limit self required_type names →
       lack_of_space a (hosts_under limit self required_type names a) = false.
Proof.
  intros H. apply can_remove_host_node_Ok in H as (_ & _ & _ & ->).
  apply check_grouped_true.
Qed.

(** C1: when [can_remove_host_node] returns, it returns [False] exactly
    when some ancestor group lacks space, that is when the [kb_avail] of the
    ancestor minus the sum of the [kb_avail] of the hosts of the group is
    less than or equal to the sum of their [kb_used].  With an ancestor of
    [kb_avail] 1000 over two hosts of [kb_used] 100 and [kb_avail] 400 the
    answer is [False]; with [kb_avail] 1001 it is [True]. *)
Theorem can_remove_host_node_lack_of_space :
  (∀ limit self names required_ancestor_type b,
     can_remove_host_node limit self names required_ancestor_type = Ok b →
     b = false ↔
     ∃ ancestor,
       ancestor ∈ ancestors_of limit self required_ancestor_type names
       ∧ NodeInfo.kb_avail ancestor
         - sum (map NodeInfo.kb_avail
                  (hosts_under limit self required_ancestor_type names
                     ancestor))
         ≤ sum (map NodeInfo.kb_used
                  (hosts_under limit self required_ancestor_type names
                     ancestor)))
  ∧ (∀ limit, (1 ≤ limit)%nat →
       can_remove_host_node limit (pair_tree 1000) ["host.0"; "host.1"] "root"
       = Ok false)
  ∧ (∀ limit, (1 ≤ limit)%nat →
       can_remove_host_node limit (pair_tree 1001) ["host.0"; "host.1"] "root"
       = Ok true).
Proof.
  split; [|split].
  - intros limit self names ty b H.
    pose proof (can_remove_host_node_true _ _ _ _ _ H) as Ht. split.
    + intros ->.
      destruct (decide (Forall (λ a, lack_of_space a
                  (hosts_under limit self ty names a) = false)
                  (ancestors_of limit self ty names))) as [Hall|Hex].
      * rewrite Forall_forall in Hall. apply Ht in Hall. discriminate.
      * apply not_Forall_Exists in Hex; [|apply _].
        apply Exists_exists in Hex as (a & Hin & Ha). simpl in Ha.
        exists a. split; [exact Hin|]. apply lack_of_space_le.
        destruct (lack_of_space a _); [reflexivity | contradiction].
    + intros (a & Hin & Hle). apply lack_of_space_le in Hle.
      destruct b; [|reflexivity].
      assert (lack_of_space a (hosts_under limit self ty names a) = false)
        as Hf by (apply Ht; auto).
      congruence.
  - intros [|limit] H; [lia | reflexivity].
  - intros [|limit] H; [lia | reflexivity].
Qed.

Lemma can_remove_host_node_lack_of_space_witness :
  can_remove_host_node 1000 (pair_tree 1000) ["host.0"; "host.1"] "root"
  = Ok false
  ∧ can_remove_host_node 1000 (pair_tree 1001) ["host.0"; "host.1"] "root"
    = Ok true
  ∧ ∃ ancestor,
      ancestor ∈ ancestors_of 1000 (pair_tree 1000) "root" ["host.0"; "host.1"]
      ∧ NodeInfo.kb_avail ancestor
        - sum (map NodeInfo.kb_avail
                 (hosts_under 1000 (pair_tree 1000) "root"
                    ["host.0"; "host.1"] ancestor))
        ≤ sum (map NodeInfo.kb_used
                 (hosts_under 1000 (pair_tree 1000) "root"
                    ["host.0"; "host.1"] ancestor)).
Proof.
  destruct can_remove_host_node_lack_of_space as (Hiff & H1000 & H1001).
  assert (can_remove_host_node 1000 (pair_tree 1000) ["host.0"; "host.1"]
            "root" = Ok false) as Hf by (apply H1000; lia).
  split; [exact Hf|]. split; [apply H1001; lia|].
  apply (Hiff _ _ _ _ _ Hf). reflexivity.
Defined.

(** C7: the answer of [can_remove_host_node] does not depend on the order
    of the names, it is the conjunction of the tests of the ancestor groups,
    and a request with a group that passes and another group that lacks
    space is answered [False]. *)
Theorem can_remove_host_node_conjunction (limit : nat) (self : CephTree)
    (names names' : list string) (required_ancestor_type : string)
    (b : bool) :
  names ≡ₚ names' →
  can_remove_host_node limit self names required_ancestor_type = Ok b →
  can_remove_host_node limit self names' required_ancestor_type = Ok b
  ∧ b = forallb
          (λ ancestor,
             negb (lack_of_space ancestor
                     (hosts_under limit self required_ancestor_type names
                        ancestor)))
          (ancestors_of limit self required_ancestor_type names)
  ∧ ∀ safe unsafe,
      safe ∈ ancestors_of limit self required_ancestor_type names →
      unsafe ∈ ancestors_of limit self required_ancestor_type names →
      safe ≠ unsafe →
      lack_of_space safe
        (hosts_under limit self required_ancestor_type names safe) = false →
      lack_of_space unsafe
        (hosts_under limit self required_ancestor_type names unsafe) = true →
      b = false.
Proof.
  intros Hperm H.
  pose proof (can_remove_host_node_true _ _ _ _ _ H) as Ht.
  apply can_remove_host_node_Ok in H as (Hs & Hhosts & Hres & Hb).
  split; [|split].
  - apply can_remove_host_node_Ok. split; [exact Hs|].
    split; [rewrite <- Hperm; exact Hhosts|].
    split; [rewrite <- Hperm; exact Hres|].
    rewrite Hb. apply check_grouped_Permutation, resolved_Permutation, Hperm.
  - apply Bool.eq_iff_eq_true. rewrite Ht, forallb_forall. split.
    + intros Hall a Hin. apply negb_true_iff, Hall, list_elem_of_In, Hin.
    + intros Hall a Hin. apply negb_true_iff, Hall, list_elem_of_In, Hin.
  - intros safe unsafe _ Hin _ _ Hlack. destruct b; [|reflexivity].
    assert (lack_of_space unsafe
              (hosts_under limit self required_ancestor_type names unsafe)
            = false) as Hf by (apply Ht; auto).
    congruence.
Qed.

Lemma can_remove_host_node_conjunction_witness :
  ["host.2"; "host.0"; "host.1"] ≡ₚ ["host.0"; "host.1"; "host.2"]
  ∧ can_remove_host_node 1000 racks_tree ["host.2"; "host.0"; "host.1"] "rack"
    = Ok false
  ∧ can_remove_host_node 1000 racks_tree ["host.0"; "host.1"; "host.2"] "rack"
    = Ok false
  ∧ lack_of_space racks_rack1
      (hosts_under 1000 racks_tree "rack" ["host.2"; "host.0"; "host.1"]
         racks_rack1) = false
  ∧ lack_of_space racks_rack0
      (hosts_under 1000 racks_tree "rack" ["host.2"; "host.0"; "host.1"]
         racks_rack0) = true.
Proof.
  assert (["host.2"; "host.0"; "host.1"] ≡ₚ ["host.0"; "host.1"; "host.2"])
    as Hperm by apply (Permutation_cons_append ["host.0"; "host.1"] "host.2").
  assert (can_remove_host_node 1000 racks_tree
            ["host.2"; "host.0"; "host.1"] "rack" = Ok false)
    as Hf by reflexivity.
  split; [exact Hperm|]. split; [exact Hf|].
  split; [|split; reflexivity].
  exact (proj1 (can_remove_host_node_conjunction 1000 racks_tree
                  ["host.2"; "host.0"; "host.1"] ["host.0"; "host.1"; "host.2"]
                  "rack" false Hperm Hf)).
Defined.

(** ** Results *)

Lemma success_add_partial_result (result : Result) (severity : Severity)
    (message : string) :
  success (add_partial_result result severity message) =
  success result && negb (bool_decide (severity = FAIL)).
Proof.
  unfold success, add_partial_result. simpl.
  rewrite forallb_app. simpl. rewrite andb_true_r. reflexivity.
Qed.

(** ** [check_cluster_health] *)

Section ClusterHealthFacts.
Variable linesep : string.

Lemma cluster_health_partial_adds (result : Result)
    (unit cluster_health : string) :
  ∃ partial,
    partials (cluster_health_partial linesep result unit cluster_health)
    = partials result ++ [partial].
Proof.
  unfold cluster_health_partial.
  repeat (match goal with |- context [if ?c then _ else _] =>
                          destruct c end);
    eexists; reflexivity.
Qed.

Lemma cluster_health_loop_app (result : Result)
    (l1 l2 : list (string * string)) :
  cluster_health_loop linesep result (l1 ++ l2) =
  cluster_health_loop linesep (cluster_health_loop linesep result l1) l2.
Proof.
  revert result. induction l1 as [|[unit h] l1 IH]; intros result; simpl.
  - reflexivity.
  - apply IH.
Qed.

Lemma cluster_health_loop_partials (result : Result)
    (action_map : list (string * string)) :
  ∃ added,
    partials (cluster_health_loop linesep result action_map)
    = partials result ++ added
    ∧ length added = length action_map.
Proof.
  revert result.
  induction action_map as [|[unit h] rest IH]; intros result; simpl.
  - exists []. rewrite app_nil_r. auto.
  - destruct (IH (cluster_health_partial linesep result unit h))
      as (added & Hp & Hl).
    destruct (cluster_health_partial_adds result unit h) as (p & Hs).
    exists (p :: added). rewrite Hp, Hs, <- app_assoc. simpl.
    split; [reflexivity | congruence].
Qed.

Lemma cluster_health_loop_success (result : Result)
    (action_map : list (string * string)) :
  success result = true →
  Forall (λ p, contains "HEALTH_OK" p.2 = true) action_map →
  success (cluster_health_loop linesep result action_map) = true.
Proof.
  revert result.
  induction action_map as [|[unit h] rest IH]; intros result Hr Hall; simpl.
  - exact Hr.
  - apply Forall_cons in Hall as [Hh Hall]. simpl in Hh.
    apply IH; [|exact Hall].
    unfold cluster_health_partial. rewrite Hh, Hr. simpl.
    rewrite success_add_partial_result, Hr. reflexivity.
Qed.

(** The partial of the unit at a given place of the dictionary. *)
Lemma cluster_health_loop_lookup (before after : list (string * string))
    (unit cluster_health : string) :
  ∃ partial,
    partials (cluster_health_partial linesep
                (cluster_health_loop linesep Result_empty before)
                unit cluster_health)
    = partials (cluster_health_loop linesep Result_empty before) ++ [partial]
    ∧ partials (cluster_health_loop linesep Result_empty
                  (before ++ (unit, cluster_health) :: after))
      !! length before = Some partial.
Proof.
  destruct (cluster_health_partial_adds
              (cluster_health_loop linesep Result_empty before)
              unit cluster_health) as (p & Hp).
  exists p. split; [exact Hp|].
  rewrite cluster_health_loop_app. simpl.
  destruct (cluster_health_loop_partials
              (cluster_health_partial linesep
                 (cluster_health_loop linesep Result_empty before)
                 unit cluster_health) after) as (added & -> & _).
  rewrite Hp.
  destruct (cluster_health_loop_partials Result_empty before)
    as (first & -> & Hl). simpl.
  rewrite <- app_assoc. simpl. apply list_lookup_middle. auto.
Qed.

Lemma check_cluster_health_loop (before after : list (string * string))
    (x : string * string) :
  check_cluster_health linesep (before ++ x :: after) =
  cluster_health_loop linesep Result_empty (before ++ x :: after).
Proof. unfold check_cluster_health. destruct before; reflexivity. Qed.

(** C2, as amended: the units are taken in the order of the dictionary and
    each contributes one partial.  A unit whose message contains
    [HEALTH_OK] contributes an OK partial when the message of every
    earlier unit contains [HEALTH_OK] too.  A unit whose message does not
    contain [HEALTH_OK] contributes a FAIL partial: with the whole message
    when it contains [HEALTH_WARN] or [HEALTH_ERR], about an unknown
    state, again with the message, otherwise.  With no unit at all the
    result is the single FAIL partial that the status could not be
    obtained. *)
Theorem check_cluster_health_partials (before after : list (string * string))
    (unit cluster_health : string) :
  let action_map := before ++ (unit, cluster_health) :: after in
  let result := check_cluster_health linesep action_map in
  length (partials result) = length action_map
  ∧ (contains "HEALTH_OK" cluster_health = true →
     Forall (λ p, contains "HEALTH_OK" p.2 = true) before →
     partials result !! length before
     = Some (OK, unit +:+ ": Ceph cluster is healthy"))
  ∧ (contains "HEALTH_OK" cluster_health = false →
     contains "HEALTH_WARN" cluster_health = true →
     partials result !! length before
     = Some (FAIL, unit +:+ ": Ceph cluster is in a warning state"
                     +:+ linesep +:+ "  " +:+ cluster_health))
  ∧ (contains "HEALTH_OK" cluster_health = false →
     contains "HEALTH_WARN" cluster_health = false →
     contains "HEALTH_ERR" cluster_health = true →
     partials result !! length before
     = Some (FAIL, unit +:+ ": Ceph cluster is unhealthy"
                     +:+ linesep +:+ "  " +:+ cluster_health))
  ∧ (contains "HEALTH_OK" cluster_health = false →
     contains "HEALTH_WARN" cluster_health = false →
     contains "HEALTH_ERR" cluster_health = false →
     partials result !! length before
     = Some (FAIL, unit +:+ ": Ceph cluster is in an unknown state"
                     +:+ linesep +:+ "  " +:+ cluster_health))
  ∧ check_cluster_health linesep []
    = Result_of FAIL "Ceph cluster status could not be obtained"
  ∧ success (check_cluster_health linesep []) = false
  ∧ severity (check_cluster_health linesep []) = FAIL.
Proof.
  intros action_map result. subst action_map result.
  rewrite check_cluster_health_loop.
  destruct (cluster_health_loop_lookup before after unit cluster_health)
    as (p & Hp & ->).
  split.
  { destruct (cluster_health_loop_partials Result_empty
                (before ++ (unit, cluster_health) :: after))
      as (added & -> & Hl). exact Hl. }
  assert (∀ q, partials (cluster_health_partial linesep
                 (cluster_health_loop linesep Result_empty before)
                 unit cluster_health)
               = partials (cluster_health_loop linesep Result_empty before)
                 ++ [q] → Some p = Some q) as Hq.
  { intros q Hq. rewrite Hp in Hq. apply app_inv_head in Hq. congruence. }
  unfold cluster_health_partial in Hq.
  repeat split.
  - intros Hok Hall. apply Hq.
    rewrite Hok, (cluster_health_loop_success Result_empty before eq_refl Hall).
    reflexivity.
  - intros Hok Hwarn. apply Hq. rewrite Hok, Hwarn. reflexivity.
  - intros Hok Hwarn Herr. apply Hq. rewrite Hok, Hwarn, Herr. reflexivity.
  - intros Hok Hwarn Herr. apply Hq. rewrite Hok, Hwarn, Herr. reflexivity.
Qed.
End ClusterHealthFacts.

(** ** Strings *)

Lemma string_length_app (s t : string) :
  String.length (s +:+ t) = (String.length s + String.length t)%nat.
Proof.
  induction s as [|c s IH]; simpl; [reflexivity | rewrite IH; reflexivity].
Qed.

Lemma string_app_inj_r (s s' t : string) : s +:+ t = s' +:+ t → s = s'.
Proof.
  revert s'. induction s as [|c s IH]; intros [|c' s'] H; simpl in H.
  - reflexivity.
  - apply (f_equal String.length) in H.
    rewrite !string_length_app in H. simpl in H. lia.
  - apply (f_equal String.length) in H.
    rewrite !string_length_app in H. simpl in H. lia.
  - injection H as -> H. f_equal. apply IH, H.
Qed.

Lemma quorum_lost_message_inj (unit_id unit_id' : string) :
  quorum_lost_message unit_id = quorum_lost_message unit_id' →
  unit_id = unit_id'.
Proof.
  unfold quorum_lost_message. intros H.
  apply String.app_inj in H. apply string_app_inj_r in H. exact H.
Qed.

(** ** [check_quorum] *)

Lemma NoDup_fst_elem_of {A B : Type} (l : list (A * B)) (k : A) (v v' : B) :
  NoDup l.*1 → (k, v) ∈ l → (k, v') ∈ l → v = v'.
Proof.
  induction l as [|[k0 v0] l IH]; simpl; intros Hl Hv Hv'.
  - inversion Hv.
  - apply NoDup_cons in Hl as [Hk Hl].
    apply elem_of_cons in Hv as [[= -> ->]|Hv];
      apply elem_of_cons in Hv' as [[= ->]|Hv'].
    + reflexivity.
    + destruct Hk. apply list_elem_of_fmap. exists (k0, v'). auto.
    + subst. destruct Hk. apply list_elem_of_fmap. exists (k0, v). auto.
    + apply IH; assumption.
Qed.

Lemma quorum_partial_elem_of (hosts : gset atom) (result result' : Result)
    (unit_id : string) (action : Action.t) (partial : Severity * string) :
  quorum_partial hosts result unit_id action = Ok result' →
  partial ∈ partials result' ↔
  partial ∈ partials result ∨ quorum_contribution hosts unit_id action partial.
Proof.
  unfold quorum_partial, quorum_contribution.
  destruct (_parse_quorum_status action) as [[mon_count online]|e].
  - destruct (Nat.leb_spec (size (online ∖ hosts)) (mon_count / 2)) as [Hle|Hgt].
    + intros [= <-]. simpl. rewrite elem_of_app, list_elem_of_singleton. tauto.
    + intros [= <-]. split; [auto | intros [H|[Hle _]]; [exact H | lia]].
  - destruct e; try discriminate; intros [= <-]; simpl;
      rewrite elem_of_app, list_elem_of_singleton; tauto.
Qed.

Lemma quorum_loop_elem_of (hosts : gset atom) (result result' : Result)
    (action_results : list (string * Action.t))
    (partial : Severity * string) :
  quorum_loop hosts result action_results = Ok result' →
  partial ∈ partials result' ↔
  partial ∈ partials result
  ∨ ∃ unit_id action,
      (unit_id, action) ∈ action_results
      ∧ quorum_contribution hosts unit_id action partial.
Proof.
  revert result.
  induction action_results as [|[u a] rest IH]; intros result; simpl.
  - intros [= <-]. split; [auto | intros [H|(? & ? & H & _)]]; [exact H|].
    inversion H.
  - intros H. apply bind_Ok in H as (r1 & H1 & H2).
    rewrite (IH _ H2), (quorum_partial_elem_of _ _ _ _ _ _ H1). split.
    + intros [[H|H]|(u' & a' & Hin & H)]; [auto| |].
      * right. exists u, a. split; [apply list_elem_of_here | exact H].
      * right. exists u', a'. split; [apply list_elem_of_further, Hin | exact H].
    + intros [H|(u' & a' & Hin & H)]; [auto|].
      apply elem_of_cons in Hin as [[= -> ->]|Hin]; [auto|].
      right. exists u', a'. auto.
Qed.

Lemma check_quorum_FAIL_elem_of (units : list Unit.t)
    (action_results : list (string * Action.t)) (result : Result)
    (message : string) :
  check_quorum units action_results = Ok result →
  (FAIL, message) ∈ partials result ↔
  ∃ unit_id action,
    (unit_id, action) ∈ action_results
    ∧ quorum_contribution (affected_hosts units) unit_id action
        (FAIL, message).
Proof.
  unfold check_quorum. intros H. apply bind_Ok in H as (r & Hr & [= <-]).
  pose proof (quorum_loop_elem_of _ _ _ _ (FAIL, message) Hr) as Hloop.
  simpl in Hloop. rewrite elem_of_nil in Hloop.
  unfold Result_or. destruct (partials r) as [|p ps] eqn:Hp.
  - simpl. rewrite list_elem_of_singleton. rewrite elem_of_nil in Hloop.
    split; [discriminate | intros H; exfalso; apply Hloop; auto].
  - rewrite Hp. rewrite Hloop. tauto.
Qed.

Lemma _parse_quorum_status_Ok (action : Action.t) (v : json)
    (K O : gset atom) :
  Action.message action = Some v →
  know_mons v = Ok K →
  online_mons v = Ok O →
  _parse_quorum_status action = Ok (size K, O).
Proof.
  unfold _parse_quorum_status. intros -> HK HO. simpl.
  rewrite HK. simpl. rewrite HO. reflexivity.
Qed.

(** C3: for a unit whose quorum status gives the known monitors [K] and the
    online monitors [O], and the hostnames [R] of the units to remove,
    [check_quorum] records the FAIL partial of the unit exactly when
    [|O - R| <= |K| // 2].  With five known monitors, two monitors left
    online fail the check and three pass it. *)
Theorem check_quorum_majority :
  (∀ units action_results unit_id action v K O result,
     NoDup action_results.*1 →
     (unit_id, action) ∈ action_results →
     Action.message action = Some v →
     know_mons v = Ok K →
     online_mons v = Ok O →
     check_quorum units action_results = Ok result →
     (FAIL, quorum_lost_message unit_id) ∈ partials result ↔
     (size (O ∖ affected_hosts units) ≤ size K / 2)%nat)
  ∧ (∀ hosts result unit_id action v K O,
       Action.message action = Some v →
       know_mons v = Ok K →
       online_mons v = Ok O →
       quorum_partial hosts result unit_id action
       = Ok (if (size (O ∖ hosts) <=? size K / 2)%nat
             then add_partial_result result FAIL (quorum_lost_message unit_id)
             else result))
  ∧ check_quorum [sample_mon_unit "0" "a"]
      [("ceph-mon/0",
        Action.mk "10" (Some (sample_quorum_status five_mons ["a"; "b"; "c"])))]
    = Ok (Result_of FAIL (quorum_lost_message "ceph-mon/0"))
  ∧ check_quorum [sample_mon_unit "0" "a"]
      [("ceph-mon/0",
        Action.mk "10"
          (Some (sample_quorum_status five_mons ["a"; "b"; "c"; "d"])))]
    = Ok (Result_of OK "Ceph-mon quorum check passed.").
Proof.
  split; [|split; [|split; reflexivity]].
  - intros units action_results unit_id action v K O result
      Hnodup Hin Hv HK HO Hcheck.
    pose proof (_parse_quorum_status_Ok _ _ _ _ Hv HK HO) as Hparse.
    rewrite (check_quorum_FAIL_elem_of _ _ _ _ Hcheck). split.
    + intros (u & a & Hin' & Hc). unfold quorum_contribution in Hc.
      destruct (_parse_quorum_status a) as [[n online]|e] eqn:Ha.
      * destruct Hc as [Hle Hmsg].
        assert (quorum_lost_message unit_id = quorum_lost_message u)
          as Hu by congruence.
        apply quorum_lost_message_inj in Hu. subst u.
        rewrite (NoDup_fst_elem_of _ _ _ _ Hnodup Hin' Hin) in Ha.
        rewrite Hparse in Ha. injection Ha as <- <-. exact Hle.
      * destruct e; try contradiction; discriminate.
    + intros Hle. exists unit_id, action. split; [exact Hin|].
      unfold quorum_contribution. rewrite Hparse. auto.
  - intros hosts result unit_id action v K O Hv HK HO.
    unfold quorum_partial.
    rewrite (_parse_quorum_status_Ok _ _ _ _ Hv HK HO).
    destruct (_ <=? _)%nat; reflexivity.
Qed.

Lemma check_quorum_majority_witness :
  (FAIL, quorum_lost_message "ceph-mon/0")
  ∈ partials
      (Result_of FAIL (quorum_lost_message "ceph-mon/0"))
  ↔ (size (list_to_set (C := gset atom) [AStr "a"; AStr "b"; AStr "c"]
           ∖ affected_hosts [sample_mon_unit "0" "a"])
     ≤ size (list_to_set (C := gset atom) (map AStr five_mons)) / 2)%nat.
Proof.
  destruct check_quorum_majority as (Hiff & _ & Hfail & _).
  apply (Hiff [sample_mon_unit "0" "a"]
           [("ceph-mon/0",
             Action.mk "10"
               (Some (sample_quorum_status five_mons ["a"; "b"; "c"])))]
           "ceph-mon/0"
           (Action.mk "10"
              (Some (sample_quorum_status five_mons ["a"; "b"; "c"])))
           (sample_quorum_status five_mons ["a"; "b"; "c"])).
  - apply NoDup_singleton.
  - apply list_elem_of_here.
  - reflexivity.
  - reflexivity.
  - reflexivity.
  - exact Hfail.
Defined.

Lemma quorum_partial_caught (hosts : gset atom) (result : Result)
    (unit_id : string) (action : Action.t) :
  _parse_quorum_status action = Raise JSONDecodeError
  ∨ _parse_quorum_status action = Raise KeyError →
  quorum_partial hosts result unit_id action
  = Ok (add_partial_result result FAIL (quorum_parse_failed_message action)).
Proof. unfold quorum_partial. intros [-> | ->]; reflexivity. Qed.

Lemma quorum_partial_escapes (hosts : gset atom) (result : Result)
    (unit_id : string) (action : Action.t) (e : exn) :
  quorum_partial hosts result unit_id action = Raise e →
  e ≠ JSONDecodeError ∧ e ≠ KeyError.
Proof.
  unfold quorum_partial.
  destruct (_parse_quorum_status action) as [[n online]|e'].
  - destruct (_ <=? _)%nat; discriminate.
  - destruct e'; try discriminate; intros [= <-]; split; discriminate.
Qed.

Lemma quorum_loop_escapes (hosts : gset atom) (result : Result)
    (action_results : list (string * Action.t)) (e : exn) :
  quorum_loop hosts result action_results = Raise e →
  e ≠ JSONDecodeError ∧ e ≠ KeyError.
Proof.
  revert result.
  induction action_results as [|[u a] rest IH]; intros result; simpl.
  - discriminate.
  - destruct (quorum_partial hosts result u a) as [r|e'] eqn:Hp; simpl.
    + apply IH.
    + intros [= <-]. eapply quorum_partial_escapes, Hp.
Qed.

Lemma quorum_loop_app (hosts : gset atom) (result : Result)
    (l1 l2 : list (string * Action.t)) :
  quorum_loop hosts result (l1 ++ l2) =
  quorum_loop hosts result l1 ≫= λ result', quorum_loop hosts result' l2.
Proof.
  revert result. induction l1 as [|[u a] l1 IH]; intros result; simpl.
  - reflexivity.
  - destruct (quorum_partial hosts result u a) as [r|e]; simpl; [apply IH|].
    reflexivity.
Qed.

(** C9: an action whose message is not valid JSON, or lacks an expected
    key, makes [_parse_quorum_status] raise [JSONDecodeError] or [KeyError];
    [check_quorum] then records a FAIL partial naming the action, goes on
    with the units that follow, and never raises either exception itself. *)
Theorem check_quorum_parse_failure :
  (∀ units action_results,
     check_quorum units action_results ≠ Raise JSONDecodeError
     ∧ check_quorum units action_results ≠ Raise KeyError)
  ∧ (∀ hosts result before unit_id action after,
       _parse_quorum_status action = Raise JSONDecodeError
       ∨ _parse_quorum_status action = Raise KeyError →
       quorum_loop hosts result (before ++ (unit_id, action) :: after)
       = quorum_loop hosts result before ≫= λ result',
           quorum_loop hosts
             (add_partial_result result' FAIL
                (quorum_parse_failed_message action)) after)
  ∧ (∀ units action_results unit_id action result,
       (unit_id, action) ∈ action_results →
       _parse_quorum_status action = Raise JSONDecodeError
       ∨ _parse_quorum_status action = Raise KeyError →
       check_quorum units action_results = Ok result →
       (FAIL, quorum_parse_failed_message action) ∈ partials result)
  ∧ (∀ action,
       Action.message action = None →
       _parse_quorum_status action = Raise JSONDecodeError)
  ∧ (∀ action members,
       Action.message action = Some (JObj members) →
       dict_get "monmap" members = None
       ∨ (∃ monmap_members,
            dict_get "monmap" members = Some (JObj monmap_members)
            ∧ dict_get "mons" monmap_members = None) →
       _parse_quorum_status action = Raise KeyError).
Proof.
  split; [|split; [|split; [|split]]].
  - intros units action_results. unfold check_quorum.
    destruct (quorum_loop (affected_hosts units) Result_empty action_results)
      as [r|e] eqn:Hloop; simpl.
    + split; discriminate.
    + apply quorum_loop_escapes in Hloop as [H1 H2].
      split; congruence.
  - intros hosts result before unit_id action after Hfail.
    rewrite quorum_loop_app.
    destruct (quorum_loop hosts result before) as [r|e]; simpl; [|reflexivity].
    rewrite (quorum_partial_caught _ _ _ _ Hfail). reflexivity.
  - intros units action_results unit_id action result Hin Hfail Hcheck.
    apply (check_quorum_FAIL_elem_of _ _ _ _ Hcheck).
    exists unit_id, action. split; [exact Hin|].
    unfold quorum_contribution. destruct Hfail as [-> | ->]; reflexivity.
  - intros action Hm. unfold _parse_quorum_status. rewrite Hm. reflexivity.
  - intros action members Hm Hmissing.
    unfold _parse_quorum_status, know_mons. rewrite Hm. simpl.
    destruct Hmissing as [-> | (monmap_members & -> & Hmons)]; [reflexivity|].
    simpl. rewrite Hmons. reflexivity.
Qed.

Lemma check_quorum_parse_failure_witness :
  check_quorum [sample_mon_unit "0" "a"]
    [("ceph-mon/0", Action.mk "10" None);
     ("ceph-mon/1", Action.mk "11" (Some (JObj [("quorum_names", JArr [])])));
     ("ceph-mon/2",
      Action.mk "12" (Some (sample_quorum_status five_mons ["a"; "b"; "c"])))]
  = Ok {| partials :=
            [(FAIL, "Failed to parse quorum status from action 10.");
             (FAIL, "Failed to parse quorum status from action 11.");
             (FAIL, quorum_lost_message "ceph-mon/2")] |}
  ∧ (FAIL, quorum_parse_failed_message (Action.mk "10" None))
    ∈ [(FAIL, "Failed to parse quorum status from action 10.");
       (FAIL, "Failed to parse quorum status from action 11.");
       (FAIL, quorum_lost_message "ceph-mon/2")]
  ∧ (FAIL, quorum_parse_failed_message
             (Action.mk "11" (Some (JObj [("quorum_names", JArr [])]))))
    ∈ [(FAIL, "Failed to parse quorum status from action 10.");
       (FAIL, "Failed to parse quorum status from action 11.");
       (FAIL, quorum_lost_message "ceph-mon/2")].
Proof.
  destruct check_quorum_parse_failure as (_ & _ & Hin & Hjson & Hkey).
  assert (check_quorum [sample_mon_unit "0" "a"]
    [("ceph-mon/0", Action.mk "10" None);
     ("ceph-mon/1", Action.mk "11" (Some (JObj [("quorum_names", JArr [])])));
     ("ceph-mon/2",
      Action.mk "12" (Some (sample_quorum_status five_mons ["a"; "b"; "c"])))]
  = Ok {| partials :=
            [(FAIL, "Failed to parse quorum status from action 10.");
             (FAIL, "Failed to parse quorum status from action 11.");
             (FAIL, quorum_lost_message "ceph-mon/2")] |})
    as Hcheck by reflexivity.
  split; [exact Hcheck|]. split.
  - apply (Hin _ _ "ceph-mon/0" _ _ (list_elem_of_here _ _)
             (or_introl (Hjson (Action.mk "10" None) eq_refl)) Hcheck).
  - apply (Hin _ _ "ceph-mon/1" _ _
             (list_elem_of_further _ _ _ (list_elem_of_here _ _))
             (or_intror
                (Hkey (Action.mk "11" (Some (JObj [("quorum_names", JArr [])])))
                   [("quorum_names", JArr [])] eq_refl (or_introl eq_refl)))
             Hcheck).
Defined.

(** ** [check_replication_number] *)

Lemma foldl_min_spec (first : Z) (rest : list Z) :
  foldl Z.min first rest ∈ first :: rest
  ∧ ∀ x, x ∈ first :: rest → foldl Z.min first rest ≤ x.
Proof.
  revert first. induction rest as [|y rest IH]; intros first; simpl.
  - split; [apply list_elem_of_here|].
    intros x Hx. apply list_elem_of_singleton in Hx as ->. lia.
  - destruct (IH (Z.min first y)) as [Hin Hle]. split.
    + apply elem_of_cons in Hin as [Hin|Hin].
      * rewrite Hin. destruct (Z.min_spec first y) as [[_ ->]|[_ ->]].
        -- apply list_elem_of_here.
        -- apply list_elem_of_further, list_elem_of_here.
      * do 2 apply list_elem_of_further. exact Hin.
    + intros x Hx.
      assert (foldl Z.min (Z.min first y) rest ≤ Z.min first y)
        as Hm by (apply Hle, list_elem_of_here).
      apply elem_of_cons in Hx as [->|Hx]; [lia|].
      apply elem_of_cons in Hx as [->|Hx]; [lia|].
      apply Hle, list_elem_of_further, Hx.
Qed.

Lemma pool_margins_pools (items : list json) (pools : list (Z * Z)) :
  Forall2 is_pool items pools →
  pool_margins items = Ok (map (λ pool, pool.1 - pool.2) pools).
Proof.
  induction 1 as [|item pool items pools [Hs Hm] _ IH]; simpl.
  - reflexivity.
  - unfold pool_margin. rewrite Hs. simpl. rewrite Hm. simpl.
    rewrite IH. reflexivity.
Qed.

Lemma replication_partial_shift (units : list Unit.t)
    (applications : gmap string (list Unit.t)) (result : Result)
    (app_name : string) (message : option json) :
  replication_partial units applications result app_name message =
  replication_partial units applications Result_empty app_name message
  ≫= λ added, Ok (combine result added).
Proof.
  assert (combine result Result_empty = result) as Hid.
  { destruct result as [ps]. unfold combine. simpl.
    rewrite app_nil_r. reflexivity. }
  unfold replication_partial.
  destruct (get_replication_number message) as [[margin|]|e]; simpl.
  - destruct (applications !! app_name) as [app_units|]; [|reflexivity].
    destruct (_ >? _); simpl; [reflexivity | rewrite Hid; reflexivity].
  - rewrite Hid. reflexivity.
  - reflexivity.
Qed.

Lemma replication_loop_shift (units : list Unit.t)
    (applications : gmap string (list Unit.t)) (result : Result)
    (ceph_mon_app_map : list (string * option json)) :
  replication_loop units applications result ceph_mon_app_map =
  replication_loop units applications Result_empty ceph_mon_app_map
  ≫= λ added, Ok (combine result added).
Proof.
  revert result.
  induction ceph_mon_app_map as [|[app message] rest IH]; intros result; simpl.
  - destruct result as [ps]. unfold combine. simpl.
    rewrite app_nil_r. reflexivity.
  - rewrite (replication_partial_shift _ _ result).
    destruct (replication_partial units applications Result_empty app message)
      as [r1|e]; simpl; [|reflexivity].
    rewrite (IH (combine result r1)), (IH r1).
    destruct (replication_loop units applications Result_empty rest)
      as [r2|e]; simpl; [|reflexivity].
    unfold combine. simpl. rewrite app_assoc. reflexivity.
Qed.

Lemma replication_loop_app (units : list Unit.t)
    (applications : gmap string (list Unit.t)) (result : Result)
    (l1 l2 : list (string * option json)) :
  replication_loop units applications result (l1 ++ l2) =
  replication_loop units applications result l1
  ≫= λ result', replication_loop units applications result' l2.
Proof.
  revert result. induction l1 as [|[app message] l1 IH]; intros result; simpl.
  - reflexivity.
  - destruct (replication_partial units applications result app message)
      as [r|e]; simpl; [apply IH | reflexivity].
Qed.

(** C4: the margin of an application is the minimum of [size - min_size]
    over its pools.  In the result of [check_replication_number] an
    application with pools contributes one FAIL partial when the number of
    units to remove or inactive exceeds the margin and nothing otherwise;
    an application without pools contributes nothing, the result is the one
    of the check without that application. *)
Theorem check_replication_number_margin :
  (∀ items pools,
     items ≠ [] →
     Forall2 is_pool items pools →
     ∃ margin,
       get_replication_number (Some (JArr items)) = Ok (Some margin)
       ∧ margin ∈ map (λ pool, pool.1 - pool.2) pools
       ∧ ∀ x, x ∈ map (λ pool, pool.1 - pool.2) pools → margin ≤ x)
  ∧ (∀ units applications before app_name message after app_units margin
       result,
       applications !! app_name = Some app_units →
       get_replication_number message = Ok (Some margin) →
       check_replication_number units applications
         (before ++ (app_name, message) :: after) = Ok result →
       ∃ result_before result_after contribution,
         replication_loop units applications Result_empty before
         = Ok result_before
         ∧ replication_loop units applications Result_empty after
           = Ok result_after
         ∧ result
           = Result_or
               {| partials := partials result_before ++ contribution
                              ++ partials result_after |}
               (Result_of OK "Minimum replica number check passed.")
         ∧ (margin
            < Z.of_nat (size (units_of app_name units
                              ∪ inactive_units_of app_units)) →
            contribution
            = [(FAIL, replication_message app_name margin
                        (units_of app_name units)
                        (inactive_units_of app_units))])
         ∧ (Z.of_nat (size (units_of app_name units
                            ∪ inactive_units_of app_units)) ≤ margin →
            contribution = []))
  ∧ (∀ units applications before app_name message after,
       get_replication_number message = Ok None →
       check_replication_number units applications
         (before ++ (app_name, message) :: after)
       = check_replication_number units applications (before ++ after))
  ∧ get_replication_number (Some (JArr [])) = Ok None
  ∧ check_replication_number [sample_osd_unit "0" "active"]
      {[ "ceph-osd" := [sample_osd_unit "0" "active";
                        sample_osd_unit "1" "active"] ]}
      [("ceph-osd", Some (JArr [sample_pool "rbd" 3 2]))]
    = Ok (Result_of OK "Minimum replica number check passed.")
  ∧ check_replication_number [sample_osd_unit "0" "active"]
      {[ "ceph-osd" := [sample_osd_unit "0" "active";
                        sample_osd_unit "1" "blocked"] ]}
      [("ceph-osd", Some (JArr [sample_pool "rbd" 3 2]))]
    = Ok (Result_of FAIL
            ("The minimum number of replicas in 'ceph-osd' is 1 and it's "
             +:+ "not safe to reboot/shutdown 1 units. 1 units are not "
             +:+ "active.")).
Proof.
  split; [|split; [|split; [|split; [|split]]]];
    [ | | |reflexivity|reflexivity|reflexivity].
  - intros items pools Hne Hpools.
    unfold get_replication_number. simpl.
    destruct items as [|item items]; [contradiction|]. simpl.
    change (pool_margin item ≫= _) with (pool_margins (item :: items)).
    rewrite (pool_margins_pools _ _ Hpools).
    destruct pools as [|pool pools]; [inversion Hpools|]. simpl.
    eexists. split; [reflexivity|]. apply foldl_min_spec.
  - intros units applications before app_name message after app_units margin
      result Happ Hget Hcheck.
    unfold check_replication_number in Hcheck.
    apply bind_Ok in Hcheck as (r & Hloop & [= <-]).
    rewrite replication_loop_app in Hloop.
    apply bind_Ok in Hloop as (rb & Hb & Hloop). simpl in Hloop.
    apply bind_Ok in Hloop as (r1 & H1 & Hloop).
    rewrite replication_loop_shift in Hloop.
    apply bind_Ok in Hloop as (ra & Ha & [= <-]).
    unfold replication_partial in H1. rewrite Hget in H1. simpl in H1.
    rewrite Happ in H1. rewrite Z.gtb_ltb in H1.
    destruct (Z.ltb_spec margin
                (Z.of_nat (size (units_of app_name units
                                 ∪ inactive_units_of app_units))))
      as [Hlt|Hge]; injection H1 as <-.
    + exists rb, ra. eexists. split; [exact Hb|]. split; [exact Ha|].
      split; [|split; [intros _; reflexivity | intros Hle; lia]].
      unfold combine, add_partial_result. simpl.
      rewrite <- app_assoc. reflexivity.
    + exists rb, ra, []. split; [exact Hb|]. split; [exact Ha|].
      split; [|split; [intros Hlt; lia | intros _; reflexivity]].
      reflexivity.
  - intros units applications before app_name message after Hget.
    unfold check_replication_number. rewrite !replication_loop_app.
    destruct (replication_loop units applications Result_empty before)
      as [rb|e]; simpl; [|reflexivity].
    unfold replication_partial. rewrite Hget. reflexivity.
Qed.

Lemma check_replication_number_margin_witness :
  (∃ margin,
     get_replication_number
       (Some (JArr [sample_pool "rbd" 3 2; sample_pool "cephfs" 5 2]))
     = Ok (Some margin)
     ∧ margin ∈ [3 - 2; 5 - 2]
     ∧ ∀ x, x ∈ [3 - 2; 5 - 2] → margin ≤ x)
  ∧ let units := [sample_osd_unit "0" "active"] in
    let app_units :=
      [sample_osd_unit "0" "active"; sample_osd_unit "1" "blocked"] in
    let applications : gmap string (list Unit.t) :=
      {[ "ceph-osd" := app_units ]} in
    ∃ result_before result_after contribution,
      replication_loop units applications Result_empty [] = Ok result_before
      ∧ replication_loop units applications Result_empty [] = Ok result_after
      ∧ Result_of FAIL
          (replication_message "ceph-osd" 1 (units_of "ceph-osd" units)
             (inactive_units_of app_units))
        = Result_or
            {| partials := partials result_before ++ contribution
                           ++ partials result_after |}
            (Result_of OK "Minimum replica number check passed.")
      ∧ (1 < Z.of_nat (size (units_of "ceph-osd" units
                             ∪ inactive_units_of app_units)) →
         contribution
         = [(FAIL, replication_message "ceph-osd" 1
                     (units_of "ceph-osd" units)
                     (inactive_units_of app_units))])
      ∧ (Z.of_nat (size (units_of "ceph-osd" units
                         ∪ inactive_units_of app_units)) ≤ 1 →
         contribution = []).
Proof.
  destruct check_replication_number_margin as (Hmargin & Hpartial & _).
  split.
  - apply (Hmargin [sample_pool "rbd" 3 2; sample_pool "cephfs" 5 2]
             [(3, 2); (5, 2)]).
    + discriminate.
    + repeat constructor.
  - cbv zeta.
    apply (Hpartial [sample_osd_unit "0" "active"]
             {[ "ceph-osd" := [sample_osd_unit "0" "active";
                               sample_osd_unit "1" "blocked"] ]}
             [] "ceph-osd" (Some (JArr [sample_pool "rbd" 3 2])) []
             [sample_osd_unit "0" "active"; sample_osd_unit "1" "blocked"] 1).
    + reflexivity.
    + reflexivity.
    + reflexivity.
Defined.

(** ** [verify_reboot] *)

Section VerifyFacts.
Variable World : Type.
Variable failure_message : string → exn → string.

Lemma combine_empty_l (r : Result) : combine Result_empty r = r.
Proof. destruct r as [ps]. reflexivity. Qed.

Lemma checks_executor_one (c : check World) (s : run World) :
  checks_executor World failure_message [c] s =
  (outcome_result failure_message c (call c (world s)).1,
   {| world := (call c (world s)).2; called := called s ++ [__name__ c] |}).
Proof.
  unfold checks_executor. simpl.
  destruct (call c (world s)) as [[r|e] w]; simpl.
  - rewrite combine_empty_l. reflexivity.
  - reflexivity.
Qed.

Lemma checks_executor_two (c1 c2 : check World) (s : run World) :
  checks_executor World failure_message [c1; c2] s =
  let first := checks_executor World failure_message [c1] s in
  let second := checks_executor World failure_message [c2] first.2 in
  (combine first.1 second.1, second.2).
Proof.
  rewrite !checks_executor_one. unfold checks_executor. simpl.
  destruct (call c1 (world s)) as [[r1|e1] w1]; simpl;
    destruct (call c2 w1) as [[r2|e2] w2]; simpl;
    rewrite ?combine_empty_l; reflexivity.
Qed.

(** C8: [verify_reboot] of the ceph-mon verifier calls the version check
    first.  When its result is not a success, no other check is called and
    that result is returned as it is.  When it is a success, the quorum
    check and then the health check are called, and the result returned is
    the three results combined in that order. *)
Theorem verify_reboot_version_gate
    (check_version check_quorum check_ceph_cluster_health : check World)
    (s : run World) :
  let gate := checks_executor World failure_message [check_version] s in
  gate = (outcome_result failure_message check_version
            (call check_version (world s)).1,
          {| world := (call check_version (world s)).2;
             called := called s ++ [__name__ check_version] |})
  ∧ (success gate.1 = false →
     verify_reboot World failure_message check_version check_quorum
       check_ceph_cluster_health s = gate)
  ∧ (success gate.1 = true →
     let quorum :=
       checks_executor World failure_message [check_quorum] gate.2 in
     let health :=
       checks_executor World failure_message [check_ceph_cluster_health]
         quorum.2 in
     verify_reboot World failure_message check_version check_quorum
       check_ceph_cluster_health s
     = (combine gate.1 (combine quorum.1 health.1), health.2)
     ∧ partials
         (verify_reboot World failure_message check_version check_quorum
            check_ceph_cluster_health s).1
       = partials gate.1 ++ partials quorum.1 ++ partials health.1
     ∧ called health.2
       = called s ++ [__name__ check_version; __name__ check_quorum;
                      __name__ check_ceph_cluster_health]).
Proof.
  intros gate. subst gate. split; [apply checks_executor_one|].
  unfold verify_reboot.
  rewrite (checks_executor_one check_version s).
  set (version := outcome_result failure_message check_version
                    (call check_version (world s)).1).
  set (s1 := {| world := (call check_version (world s)).2;
                called := called s ++ [__name__ check_version] |}).
  simpl. split.
  - intros ->. reflexivity.
  - intros ->. simpl.
    rewrite checks_executor_two. simpl.
    rewrite !checks_executor_one. simpl.
    split; [reflexivity|]. split; [reflexivity|].
    rewrite <- !app_assoc. reflexivity.
Qed.
End VerifyFacts.

Lemma verify_reboot_version_gate_witness :
  verify_reboot nat sample_failure_message
    (sample_check "check_version" (Ok (Result_of FAIL "Juju agent is too old")))
    (sample_check "check_quorum" (Raise TypeError))
    (sample_check "check_ceph_cluster_health"
       (Ok (Result_of OK "ceph-mon/0: Ceph cluster is healthy")))
    {| world := 0%nat; called := [] |}
  = (Result_of FAIL "Juju agent is too old",
     {| world := 1%nat; called := ["check_version"] |})
  ∧ verify_reboot nat sample_failure_message
      (sample_check "check_version"
         (Ok (Result_of OK "Minimum juju version check passed.")))
      (sample_check "check_quorum" (Raise TypeError))
      (sample_check "check_ceph_cluster_health"
         (Ok (Result_of OK "ceph-mon/0: Ceph cluster is healthy")))
      {| world := 0%nat; called := [] |}
    = ({| partials :=
            [(OK, "Minimum juju version check passed.");
             (FAIL, "check_quorum check failed");
             (OK, "ceph-mon/0: Ceph cluster is healthy")] |},
       {| world := 3%nat;
          called := ["check_version"; "check_quorum";
                     "check_ceph_cluster_health"] |}).
Proof.
  split.
  - pose proof (verify_reboot_version_gate nat sample_failure_message
      (sample_check "check_version"
         (Ok (Result_of FAIL "Juju agent is too old")))
      (sample_check "check_quorum" (Raise TypeError))
      (sample_check "check_ceph_cluster_health"
         (Ok (Result_of OK "ceph-mon/0: Ceph cluster is healthy")))
      {| world := 0%nat; called := [] |}) as H.
    cbv zeta in H. destruct H as (_ & Hfail & _).
    exact (Hfail eq_refl).
  - pose proof (verify_reboot_version_gate nat sample_failure_message
      (sample_check "check_version"
         (Ok (Result_of OK "Minimum juju version check passed.")))
      (sample_check "check_quorum" (Raise TypeError))
      (sample_check "check_ceph_cluster_health"
         (Ok (Result_of OK "ceph-mon/0: Ceph cluster is healthy")))
      {| world := 0%nat; called := [] |}) as H.
    cbv zeta in H. destruct H as (_ & _ & Hpass).
    exact (proj1 (Hpass eq_refl)).
Defined.

Lemma check_cluster_health_partials_witness :
  partials
    (check_cluster_health LF
       [("ceph-mon/0", "HEALTH_OK"); ("ceph-mon/1", "HEALTH_OK");
        ("ceph-mon/2", "HEALTH_WARN 1 osds down")]) !! 1%nat
  = Some (OK, "ceph-mon/1: Ceph cluster is healthy")
  ∧ partials
      (check_cluster_health LF
         [("ceph-mon/0", "HEALTH_OK"); ("ceph-mon/1", "HEALTH_OK");
          ("ceph-mon/2", "HEALTH_WARN 1 osds down")]) !! 2%nat
    = Some (FAIL, "ceph-mon/2: Ceph cluster is in a warning state" +:+ LF
                    +:+ "  " +:+ "HEALTH_WARN 1 osds down").
Proof.
  split.
  - pose proof (check_cluster_health_partials LF
                  [("ceph-mon/0", "HEALTH_OK")]
                  [("ceph-mon/2", "HEALTH_WARN 1 osds down")]
                  "ceph-mon/1" "HEALTH_OK") as H.
    cbv zeta in H. destruct H as (_ & Hok & _).
    apply Hok; [reflexivity | repeat constructor].
  - pose proof (check_cluster_health_partials LF
                  [("ceph-mon/0", "HEALTH_OK"); ("ceph-mon/1", "HEALTH_OK")]
                  [] "ceph-mon/2" "HEALTH_WARN 1 osds down") as H.
    cbv zeta in H. destruct H as (_ & _ & Hwarn & _).
    apply Hwarn; reflexivity.
Defined.

(** C2 as stated fails: after a unit that is not healthy, a unit whose
    message contains [HEALTH_OK] gets no OK partial; its partial is a FAIL
    partial about an unknown state. *)
Lemma check_cluster_health_healthy_after_failure :
  contains "HEALTH_OK" "HEALTH_OK" = true
  ∧ check_cluster_health LF
      [("ceph-mon/0", "HEALTH_ERR"); ("ceph-mon/1", "HEALTH_OK")]
    = {| partials :=
           [(FAIL, "ceph-mon/0: Ceph cluster is unhealthy" +:+ LF
                     +:+ "  HEALTH_ERR");
            (FAIL, "ceph-mon/1: Ceph cluster is in an unknown state" +:+ LF
                     +:+ "  HEALTH_OK")] |}
  ∧ ¬ ∃ message,
        (OK, message)
        ∈ partials
            (check_cluster_health LF
               [("ceph-mon/0", "HEALTH_ERR"); ("ceph-mon/1", "HEALTH_OK")]).
Proof.
  split; [reflexivity|]. split; [reflexivity|].
  intros (message & Hin). simpl in Hin.
  apply elem_of_cons in Hin as [[=]|Hin].
  apply elem_of_cons in Hin as [[=]|Hin].
  inversion Hin.
Qed.

(** * More properties *)

(** ** [CephTree.__init__] and [_get_node] *)

Lemma name_map_from_snoc (index : nat) (nodes : list NodeInfo.t)
    (node : NodeInfo.t) (acc : gmap string nat) :
  name_map_from index (nodes ++ [node]) acc =
  <[NodeInfo.name node := (index + length nodes)%nat]>
    (name_map_from index nodes acc).
Proof.
  revert index acc. induction nodes as [|n nodes IH]; intros index acc; simpl.
  - rewrite Nat.add_0_r. reflexivity.
  - rewrite IH. f_equal. lia.
Qed.

Lemma last_occurrence {A B : Type} `{EqDecision B} (f : A → B) (l : list A)
    (x : B) :
  x ∈ map f l →
  ∃ l1 y l2, l = l1 ++ y :: l2 ∧ f y = x ∧ Forall (λ z, f z ≠ x) l2.
Proof.
  induction l as [|a l IH]; simpl; intros Hin.
  - inversion Hin.
  - destruct (decide (x ∈ map f l)) as [Hl|Hl].
    + destruct (IH Hl) as (l1 & y & l2 & -> & Hy & Hall).
      exists (a :: l1), y, l2. auto.
    + apply elem_of_cons in Hin as [Hx|Hin]; [|contradiction].
      exists [], a, l. split; [reflexivity|]. split; [auto|].
      apply Forall_forall. intros z Hz Hfz. apply Hl.
      apply list_elem_of_fmap. exists z. auto.
Qed.

Lemma name_map_from_lookup (nodes : list NodeInfo.t) (name : string)
    (index : nat) :
  name_map_from 0 nodes ∅ !! name = Some index ↔
  ∃ l1 node l2,
    nodes = l1 ++ node :: l2 ∧ NodeInfo.name node = name
    ∧ Forall (λ n, NodeInfo.name n ≠ name) l2 ∧ index = length l1.
Proof.
  revert index. induction nodes as [|n nodes IH] using rev_ind; intros index.
  - simpl. rewrite lookup_empty. split; [discriminate|].
    intros (l1 & node & l2 & H & _). destruct l1; discriminate.
  - rewrite name_map_from_snoc. simpl.
    destruct (decide (NodeInfo.name n = name)) as [Hn|Hn].
    + rewrite Hn, lookup_insert_eq. split.
      * intros [= <-]. exists nodes, n, []. auto.
      * intros (l1 & node & l2 & Heq & _ & Hall & ->).
        destruct l2 as [|x l2 _] using rev_ind.
        -- apply app_inj_tail in Heq as [-> _]. reflexivity.
        -- rewrite app_comm_cons, app_assoc in Heq.
           apply app_inj_tail in Heq as [_ ->].
           apply Forall_app in Hall as [_ Hx].
           apply Forall_inv in Hx. contradiction.
    + rewrite lookup_insert_ne by exact Hn. rewrite IH. split.
      * intros (l1 & node & l2 & -> & Hname & Hall & ->).
        exists l1, node, (l2 ++ [n]). rewrite <- app_assoc. simpl.
        split; [reflexivity|]. split; [exact Hname|]. split; [|reflexivity].
        apply Forall_app. split; [exact Hall|]. apply Forall_singleton, Hn.
      * intros (l1 & node & l2 & Heq & Hname & Hall & ->).
        destruct l2 as [|x l2 _] using rev_ind.
        -- apply app_inj_tail in Heq as [_ ->]. contradiction.
        -- rewrite app_comm_cons, app_assoc in Heq.
           apply app_inj_tail in Heq as [-> ->].
           apply Forall_app in Hall as [Hall _].
           exists l1, node, l2. auto.
Qed.

(** X1: on a tree built by [__init__], [_get_node] returns the last node of
    the list that has the name, raises [KeyError] exactly when no node has
    it, and never raises the [ValueError] of a changed [_nodes]. *)
Theorem _get_node_init (nodes : list NodeInfo.t) (name : string) :
  (∀ node,
     _get_node (CephTree_init nodes) name = Ok node ↔
     ∃ l1 l2,
       nodes = l1 ++ node :: l2 ∧ NodeInfo.name node = name
       ∧ Forall (λ n, NodeInfo.name n ≠ name) l2)
  ∧ (_get_node (CephTree_init nodes) name = Raise KeyError ↔
     name ∉ map NodeInfo.name nodes)
  ∧ _get_node (CephTree_init nodes) name ≠ Raise ValueError.
Proof.
  assert (∀ index, name_map_from 0 nodes ∅ !! name = Some index →
            ∃ l1 node l2,
              nodes = l1 ++ node :: l2 ∧ NodeInfo.name node = name
              ∧ Forall (λ n, NodeInfo.name n ≠ name) l2
              ∧ _get_node (CephTree_init nodes) name = Ok node) as Hsome.
  { intros index Hi. pose proof Hi as Hi'.
    apply name_map_from_lookup in Hi' as (l1 & node & l2 & Heq & Hn & Hall & ->).
    exists l1, node, l2. split; [exact Heq|]. split; [exact Hn|].
    split; [exact Hall|]. unfold _get_node. simpl. rewrite Hi.
    rewrite Heq, list_lookup_middle by reflexivity.
    rewrite decide_True by exact Hn. reflexivity. }
  assert (name_map_from 0 nodes ∅ !! name = None ↔
          name ∉ map NodeInfo.name nodes) as Hnone.
  { split.
    - intros Hn Hin.
      apply last_occurrence in Hin as (l1 & node & l2 & Heq & Hname & Hall).
      assert (name_map_from 0 nodes ∅ !! name = Some (length l1)) as Hs.
      { apply name_map_from_lookup. exists l1, node, l2. auto. }
      congruence.
    - intros Hnot.
      destruct (name_map_from 0 nodes ∅ !! name) as [index|] eqn:Hi;
        [|reflexivity].
      apply name_map_from_lookup in Hi as (l1 & node & l2 & -> & Hn & _).
      destruct Hnot. rewrite map_app. simpl. apply elem_of_app. right.
      rewrite Hn. apply list_elem_of_here. }
  destruct (name_map_from 0 nodes ∅ !! name) as [index|] eqn:Hi.
  - destruct (Hsome index eq_refl) as (l1 & node & l2 & Heq & Hn & Hall & Hget).
    rewrite Hget. split; [|split].
    + intros node'. split.
      * intros [= <-]. exists l1, l2. auto.
      * intros (l1' & l2' & Heq' & Hn' & Hall').
        assert (name_map_from 0 nodes ∅ !! name = Some (length l1')) as Hs
          by (apply name_map_from_lookup; exists l1', node', l2'; auto).
        rewrite Hi in Hs. injection Hs as ->.
        assert (nodes !! length l1' = Some node') as H1
          by (rewrite Heq'; apply list_lookup_middle; reflexivity).
        apply name_map_from_lookup in Hi
          as (l1'' & node'' & l2'' & Heq'' & _ & _ & Hlen).
        assert (nodes !! length l1' = Some node'') as H2
          by (rewrite Heq'', Hlen; apply list_lookup_middle; reflexivity).
        assert (nodes !! length l1' = Some node) as H3.
        { pose proof Hget as Hg. unfold _get_node in Hg. simpl in Hg.
          assert (name_map_from 0 nodes ∅ !! name = Some (length l1')) as Hs.
          { apply name_map_from_lookup. exists l1', node', l2'. auto. }
          rewrite Hs in Hg.
          destruct (nodes !! length l1') as [n|]; [|discriminate].
          destruct (decide (NodeInfo.name n = name)); congruence. }
        congruence.
    + split; [discriminate|]. intros Hnot. apply Hnone in Hnot. discriminate.
    + discriminate.
  - assert (_get_node (CephTree_init nodes) name = Raise KeyError) as Hget.
    { unfold _get_node. simpl. rewrite Hi. reflexivity. }
    rewrite Hget. split; [|split].
    + intros node. split; [discriminate|].
      intros (l1 & l2 & Heq & Hn & Hall).
      assert (name_map_from 0 nodes ∅ !! name = Some (length l1)) as Hs
        by (apply name_map_from_lookup; exists l1, node, l2; auto).
      congruence.
    + split; [intros _; apply Hnone; reflexivity | reflexivity].
    + discriminate.
Qed.

(** ** [_find_ancestor] and the recursion limit *)

(** X2: a result that [_find_ancestor] reaches within a recursion limit is
    its result within every larger limit, and two limits within which it
    returns give the same result. *)
Theorem _find_ancestor_limit_independent (limit limit' : nat)
    (self : CephTree) (node : NodeInfo.t) (required_type : string)
    (r r' : option NodeInfo.t) :
  _find_ancestor limit self node required_type = Ok r →
  ((limit ≤ limit')%nat →
   _find_ancestor limit' self node required_type = Ok r)
  ∧ (_find_ancestor limit' self node required_type = Ok r' → r = r').
Proof.
  intros H. split.
  - intros Hle. eapply _find_ancestor_mono; eauto.
  - intros H'. destruct (Nat.le_ge_cases limit limit') as [Hle|Hle].
    + rewrite (_find_ancestor_mono _ _ _ _ _ _ Hle H) in H'. congruence.
    + rewrite (_find_ancestor_mono _ _ _ _ _ _ Hle H') in H. congruence.
Qed.

Lemma _find_ancestor_limit_independent_witness :
  _find_ancestor 1000 chain_tree chain_host "root" = Ok (Some chain_root).
Proof.
  assert (_find_ancestor 2 chain_tree chain_host "root" = Ok (Some chain_root))
    as H by reflexivity.
  apply (proj1 (_find_ancestor_limit_independent 2 1000 chain_tree chain_host
                  "root" (Some chain_root) None H)).
  lia.
Defined.









(** ** [can_remove_host_node]: limits and smaller requests *)

Lemma resolve_mono (limit limit' : nat) (self : CephTree)
    (required_type : string) (name : string) (p : NodeInfo.t * NodeInfo.t) :
  (limit ≤ limit')%nat →
  resolve limit self required_type name = Some p →
  resolve limit' self required_type name = Some p.
Proof.
  intros Hle. unfold resolve.
  destruct (_get_node self name) as [d|e]; [|discriminate].
  destruct (_find_ancestor limit self d required_type) as [[a|]|e] eqn:Ha;
    try discriminate.
  rewrite (_find_ancestor_mono _ _ _ _ _ _ Hle Ha). auto.
Qed.

Lemma resolved_mono (limit limit' : nat) (self : CephTree)
    (required_type : string) (names : list string) :
  (limit ≤ limit')%nat →
  Forall (λ name, is_Some (resolve limit self required_type name)) names →
  resolved limit' self required_type names
  = resolved limit self required_type names.
Proof.
  intros Hle Hall. unfold resolved.
  induction Hall as [|name names [p Hp] _ IH]; csimpl; [reflexivity|].
  rewrite Hp, (resolve_mono _ _ _ _ _ _ Hle Hp), IH. reflexivity.
Qed.

(** X4: an answer that [can_remove_host_node] gives within a recursion
    limit is its answer within every larger limit. *)
Theorem can_remove_host_node_limit_independent (limit limit' : nat)
    (self : CephTree) (names : list string) (required_ancestor_type : string)
    (b : bool) :
  (limit ≤ limit')%nat →
  can_remove_host_node limit self names required_ancestor_type = Ok b →
  can_remove_host_node limit' self names required_ancestor_type = Ok b.
Proof.
  intros Hle H. apply can_remove_host_node_Ok in H as (Hs & Hhosts & Hres & ->).
  apply can_remove_host_node_Ok. split; [exact Hs|]. split; [exact Hhosts|].
  split.
  - eapply Forall_impl; [exact Hres|]. intros name [p Hp].
    exists p. eapply resolve_mono; eauto.
  - rewrite (resolved_mono _ _ _ _ _ Hle Hres). reflexivity.
Qed.

Lemma can_remove_host_node_limit_independent_witness :
  can_remove_host_node 1000 racks_tree ["host.0"; "host.2"] "root" = Ok true.
Proof.
  apply (can_remove_host_node_limit_independent 2 1000 racks_tree
           ["host.0"; "host.2"] "root" true); [lia | reflexivity].
Defined.

Lemma sum_app (l k : list Z) : sum (l ++ k) = sum l + sum k.
Proof. unfold sum. induction l as [|x l IH]; simpl; lia. Qed.

Lemma sum_nonneg (l : list Z) : Forall (λ x, 0 ≤ x) l → 0 ≤ sum l.
Proof. unfold sum. induction 1; simpl; lia. Qed.

Lemma group_of_app (a : NodeInfo.t) (ps ps' : list (NodeInfo.t * NodeInfo.t)) :
  group_of a (ps ++ ps') = group_of a ps ++ group_of a ps'.
Proof. unfold group_of. rewrite filter_app, fmap_app. reflexivity. Qed.

Lemma resolved_app (limit : nat) (self : CephTree) (required_type : string)
    (names names' : list string) :
  resolved limit self required_type (names ++ names')
  = resolved limit self required_type names
    ++ resolved limit self required_type names'.
Proof. unfold resolved. apply omap_app. Qed.

Lemma resolved_host (limit : nat) (self : CephTree) (required_type : string)
    (names : list string) (a d : NodeInfo.t) :
  (a, d) ∈ resolved limit self required_type names →
  ∃ name, name ∈ names ∧ _get_node self name = Ok d.
Proof.
  unfold resolved. intros Hin.
  apply list_elem_of_omap in Hin as (name & Hin & Hr).
  apply resolve_Some in Hr as [Hd _]. eauto.
Qed.

(** X5: when the hosts of a request have no negative [kb_used] or
    [kb_avail] and the request is safe, every request made of some of its
    names is safe as well. *)
Theorem can_remove_host_node_fewer_names (limit : nat) (self : CephTree)
    (names names' : list string) (required_ancestor_type : string) :
  names' ⊆+ names →
  (∀ name host,
     name ∈ names → _get_node self name = Ok host →
     0 ≤ NodeInfo.kb_used host ∧ 0 ≤ NodeInfo.kb_avail host) →
  can_remove_host_node limit self names required_ancestor_type = Ok true →
  can_remove_host_node limit self names' required_ancestor_type = Ok true.
Proof.
  intros Hsub Hpos H.
  apply submseteq_Permutation in Hsub as [more Hperm].
  apply can_remove_host_node_Ok in H as (Hs & Hhosts & Hres & Hb).
  rewrite (check_grouped_Permutation _ _
             (resolved_Permutation limit self required_ancestor_type _ _
                Hperm)) in Hb.
  rewrite Hperm in Hhosts, Hres.
  assert (∀ name host, name ∈ names' ++ more → _get_node self name = Ok host →
            0 ≤ NodeInfo.kb_used host ∧ 0 ≤ NodeInfo.kb_avail host) as Hpos'.
  { intros name host Hin. apply Hpos. rewrite Hperm. exact Hin. }
  clear Hpos Hperm names.
  apply Forall_app in Hhosts as [Hhosts _].
  apply Forall_app in Hres as [Hres _].
  apply can_remove_host_node_Ok. split; [exact Hs|]. split; [exact Hhosts|].
  split; [exact Hres|]. symmetry. apply check_grouped_true. intros a Hin.
  symmetry in Hb. rewrite check_grouped_true in Hb.
  specialize (Hb a). rewrite resolved_app, fmap_app, group_of_app in Hb.
  specialize (Hb ltac:(apply elem_of_app; left; exact Hin)).
  set (ps := resolved limit self required_ancestor_type names') in *.
  set (qs := resolved limit self required_ancestor_type more) in *.
  assert (Forall (λ d, 0 ≤ NodeInfo.kb_used d ∧ 0 ≤ NodeInfo.kb_avail d)
            (group_of a qs)) as Hq.
  { apply Forall_forall. intros d Hd. unfold group_of in Hd.
    apply list_elem_of_fmap in Hd as ([a' d'] & -> & Hd).
    apply list_elem_of_filter in Hd as [_ Hd].
    apply resolved_host in Hd as (name & Hname & Hget).
    apply (Hpos' name); [apply elem_of_app; right; exact Hname | exact Hget]. }
  assert (0 ≤ sum (map NodeInfo.kb_used (group_of a qs))) as Hused.
  { apply sum_nonneg, Forall_fmap. eapply Forall_impl; [exact Hq|].
    simpl. tauto. }
  assert (0 ≤ sum (map NodeInfo.kb_avail (group_of a qs))) as Havail.
  { apply sum_nonneg, Forall_fmap. eapply Forall_impl; [exact Hq|].
    simpl. tauto. }
  unfold lack_of_space in *. rewrite !map_app, !sum_app in Hb.
  apply Z.leb_gt in Hb. apply Z.leb_gt. lia.
Qed.

Lemma can_remove_host_node_fewer_names_witness :
  can_remove_host_node 1000 (pair_tree 1001) ["host.1"] "root" = Ok true.
Proof.
  apply (can_remove_host_node_fewer_names 1000 (pair_tree 1001)
           ["host.0"; "host.1"] ["host.1"] "root").
  - apply submseteq_cons. reflexivity.
  - intros name host Hin Hget.
    apply elem_of_cons in Hin as [->|Hin].
    + change (Ok pair_host0 = Ok host) in Hget. injection Hget as <-.
      split; discriminate.
    + apply list_elem_of_singleton in Hin as ->.
      change (Ok pair_host1 = Ok host) in Hget. injection Hget as <-.
      split; discriminate.
  - reflexivity.
Defined.

(** ** [check_cluster_health]: success and severities *)

Lemma cluster_health_partial_unhealthy (linesep : string) (result : Result)
    (unit cluster_health : string) :
  contains "HEALTH_OK" cluster_health && success result = false →
  ∃ message,
    cluster_health_partial linesep result unit cluster_health
    = add_partial_result result FAIL message.
Proof.
  unfold cluster_health_partial. intros ->.
  destruct (contains "HEALTH_WARN" cluster_health); [eauto|].
  destruct (contains "HEALTH_ERR" cluster_health); eauto.
Qed.

Lemma cluster_health_loop_failed (linesep : string) (result : Result)
    (action_map : list (string * string)) :
  success result = false →
  success (cluster_health_loop linesep result action_map) = false
  ∧ map fst (partials (cluster_health_loop linesep result action_map))
    = map fst (partials result) ++ replicate (length action_map) FAIL.
Proof.
  revert result.
  induction action_map as [|[unit h] rest IH]; intros result Hr; simpl.
  - rewrite app_nil_r. auto.
  - destruct (cluster_health_partial_unhealthy linesep result unit h)
      as [message Hm]; [rewrite Hr; apply andb_false_r|].
    rewrite Hm.
    destruct (IH (add_partial_result result FAIL message)) as [Hs Hp].
    { rewrite success_add_partial_result, Hr. reflexivity. }
    split; [exact Hs|]. rewrite Hp. simpl.
    rewrite map_app, <- app_assoc. reflexivity.
Qed.

Lemma cluster_health_loop_healthy (linesep : string) (result : Result)
    (action_map : list (string * string)) :
  success result = true →
  Forall (λ p, contains "HEALTH_OK" p.2 = true) action_map →
  map fst (partials (cluster_health_loop linesep result action_map))
  = map fst (partials result) ++ replicate (length action_map) OK.
Proof.
  revert result.
  induction action_map as [|[unit h] rest IH]; intros result Hr Hall; simpl.
  - rewrite app_nil_r. reflexivity.
  - apply Forall_cons in Hall as [Hh Hall]. simpl in Hh.
    unfold cluster_health_partial. rewrite Hh, Hr. simpl.
    rewrite IH; [|rewrite success_add_partial_result, Hr; reflexivity
                 |exact Hall].
    simpl. rewrite map_app, <- app_assoc. reflexivity.
Qed.

(** X6: the result of [check_cluster_health] is a success exactly when
    there is at least one unit and the message of every unit contains
    [HEALTH_OK]. *)
Theorem check_cluster_health_success (linesep : string)
    (action_map : list (string * string)) :
  success (check_cluster_health linesep action_map) = true ↔
  action_map ≠ []
  ∧ Forall (λ p, contains "HEALTH_OK" p.2 = true) action_map.
Proof.
  destruct action_map as [|x rest].
  - simpl. split; [discriminate | intros [H _]; contradiction].
  - change (check_cluster_health linesep (x :: rest))
      with (cluster_health_loop linesep Result_empty (x :: rest)).
    split.
    + intros Hs. split; [discriminate|].
      destruct (decide (Forall (λ p, contains "HEALTH_OK" p.2 = true)
                          (x :: rest))) as [Hall|Hnot]; [exact Hall|].
      exfalso. apply not_Forall_Exists in Hnot; [|apply _].
      apply Exists_exists in Hnot as ([u h] & Hin & Hh). simpl in Hh.
      apply list_elem_of_split in Hin as (before & after & Heq).
      rewrite Heq, cluster_health_loop_app in Hs. simpl in Hs.
      destruct (cluster_health_partial_unhealthy linesep
                  (cluster_health_loop linesep Result_empty before) u h)
        as [message Hm].
      { destruct (contains "HEALTH_OK" h); [contradiction | reflexivity]. }
      rewrite Hm in Hs.
      destruct (cluster_health_loop_failed linesep
                  (add_partial_result
                     (cluster_health_loop linesep Result_empty before)
                     FAIL message) after) as [Hf _].
      { rewrite success_add_partial_result. apply andb_false_r. }
      congruence.
    + intros [_ Hall]. apply cluster_health_loop_success; [reflexivity|].
      exact Hall.
Qed.

(** X7: the partials of [check_cluster_health] are OK for the units before
    the first one whose message lacks [HEALTH_OK], and FAIL for that unit
    and for every unit after it, whatever their messages. *)
Theorem check_cluster_health_severities (linesep : string)
    (before after : list (string * string)) (unit cluster_health : string) :
  Forall (λ p, contains "HEALTH_OK" p.2 = true) before →
  contains "HEALTH_OK" cluster_health = false →
  map fst
    (partials
       (check_cluster_health linesep
          (before ++ (unit, cluster_health) :: after)))
  = replicate (length before) OK ++ replicate (S (length after)) FAIL.
Proof.
  intros Hall Hh.
  rewrite check_cluster_health_loop, cluster_health_loop_app. simpl.
  destruct (cluster_health_partial_unhealthy linesep
              (cluster_health_loop linesep Result_empty before)
              unit cluster_health) as [message Hm]; [rewrite Hh; reflexivity|].
  rewrite Hm.
  destruct (cluster_health_loop_failed linesep
              (add_partial_result
                 (cluster_health_loop linesep Result_empty before)
                 FAIL message) after) as [_ Hp].
  { rewrite success_add_partial_result. apply andb_false_r. }
  rewrite Hp. simpl. rewrite map_app, <- app_assoc.
  rewrite (cluster_health_loop_healthy linesep Result_empty before eq_refl Hall).
  reflexivity.
Qed.

Lemma check_cluster_health_severities_witness :
  map fst
    (partials
       (check_cluster_health LF
          [("ceph-mon/0", "HEALTH_OK"); ("ceph-mon/1", "HEALTH_WARN");
           ("ceph-mon/2", "HEALTH_OK"); ("ceph-mon/3", "HEALTH_OK")]))
  = [OK; FAIL; FAIL; FAIL].
Proof.
  apply (check_cluster_health_severities LF [("ceph-mon/0", "HEALTH_OK")]
           [("ceph-mon/2", "HEALTH_OK"); ("ceph-mon/3", "HEALTH_OK")]
           "ceph-mon/1" "HEALTH_WARN").
  - repeat constructor.
  - reflexivity.
Defined.

(** ** [check_quorum]: success, more hosts, statuses of the expected shape *)

Lemma quorum_partial_returns (hosts hosts' : gset atom) (result result' r : Result)
    (unit_id : string) (action : Action.t) :
  quorum_partial hosts result unit_id action = Ok r →
  ∃ r', quorum_partial hosts' result' unit_id action = Ok r'.
Proof.
  unfold quorum_partial.
  destruct (_parse_quorum_status action) as [[n online]|e].
  - intros _. destruct (_ <=? _)%nat; eauto.
  - destruct e; try discriminate; eauto.
Qed.

Lemma quorum_loop_returns (hosts hosts' : gset atom) (result result' r : Result)
    (action_results : list (string * Action.t)) :
  quorum_loop hosts result action_results = Ok r →
  ∃ r', quorum_loop hosts' result' action_results = Ok r'.
Proof.
  revert result result'.
  induction action_results as [|[u a] rest IH]; intros result result'; simpl.
  - eauto.
  - intros H. apply bind_Ok in H as (r1 & H1 & H2).
    destruct (quorum_partial_returns hosts hosts' result result' r1 u a H1)
      as [r1' ->]. simpl. eapply IH, H2.
Qed.

Lemma quorum_contribution_or_keeps (hosts : gset atom) (result r : Result)
    (unit_id : string) (action : Action.t) :
  quorum_partial hosts result unit_id action = Ok r →
  (∃ message, quorum_contribution hosts unit_id action (FAIL, message))
  ∨ keeps_quorum hosts action.
Proof.
  unfold quorum_partial, quorum_contribution, keeps_quorum.
  destruct (_parse_quorum_status action) as [[n online]|e].
  - intros _.
    destruct (Nat.le_gt_cases (size (online ∖ hosts)) (n / 2)) as [Hle|Hgt].
    + left. eauto.
    + right. eauto.
  - destruct e; try discriminate; intros _; left; eauto.
Qed.

Lemma quorum_contribution_not_keeps (hosts : gset atom) (unit_id : string)
    (action : Action.t) (partial : Severity * string) :
  quorum_contribution hosts unit_id action partial →
  partial.1 = FAIL ∧ ¬ keeps_quorum hosts action.
Proof.
  unfold quorum_contribution, keeps_quorum.
  destruct (_parse_quorum_status action) as [[n online]|e].
  - intros [Hle ->]. split; [reflexivity|].
    intros (n' & online' & [= <- <-] & Hgt). lia.
  - destruct e; try contradiction; intros ->;
      (split; [reflexivity | intros (n & online & [=] & _)]).
Qed.

Lemma quorum_loop_unit_returns (hosts : gset atom) (result r : Result)
    (action_results : list (string * Action.t)) (unit_id : string)
    (action : Action.t) :
  quorum_loop hosts result action_results = Ok r →
  (unit_id, action) ∈ action_results →
  ∃ r', quorum_partial hosts Result_empty unit_id action = Ok r'.
Proof.
  revert result. induction action_results as [|[u a] rest IH];
    intros result H Hin; simpl in H.
  - inversion Hin.
  - apply bind_Ok in H as (r1 & H1 & H2).
    apply elem_of_cons in Hin as [[= -> ->]|Hin].
    + eapply quorum_partial_returns, H1.
    + eapply IH; eauto.
Qed.

(** X8: a result of [check_quorum] always has a partial, and it is a
    success exactly when the status of every unit parses and leaves more
    than half of the known monitors online without the hosts of the units;
    it is then the single OK partial of the check. *)
Theorem check_quorum_success (units : list Unit.t)
    (action_results : list (string * Action.t)) (result : Result) :
  check_quorum units action_results = Ok result →
  partials result ≠ []
  ∧ (success result = true ↔
     Forall (λ ua, keeps_quorum (affected_hosts units) ua.2) action_results)
  ∧ (success result = true →
     result = Result_of OK "Ceph-mon quorum check passed.").
Proof.
  unfold check_quorum. intros H. apply bind_Ok in H as (r & Hr & [= <-]).
  assert (∀ p, p ∈ partials r ↔
            ∃ u a, (u, a) ∈ action_results
                   ∧ quorum_contribution (affected_hosts units) u a p) as Hin.
  { intros p. rewrite (quorum_loop_elem_of _ _ _ _ p Hr). simpl.
    rewrite elem_of_nil. tauto. }
  unfold Result_or. destruct (partials r) as [|p ps] eqn:Hp.
  - split; [discriminate|]. split; [|reflexivity].
    split; [|reflexivity]. intros _. apply Forall_forall. intros [u a] Hua.
    destruct (quorum_loop_unit_returns _ _ _ _ u a Hr Hua) as [r' Hr'].
    apply quorum_contribution_or_keeps in Hr' as [[message Hc]|Hk];
      [|exact Hk].
    exfalso. apply (not_elem_of_nil (FAIL, message)), Hin. eauto.
  - rewrite Hp. split; [discriminate|].
    destruct (proj1 (Hin p) ltac:(apply list_elem_of_here))
      as (u & a & Hua & Hc).
    apply quorum_contribution_not_keeps in Hc as [Hfail Hnot].
    assert (success r = false) as Hs.
    { unfold success. rewrite Hp. simpl. rewrite Hfail.
      rewrite bool_decide_eq_true_2 by reflexivity. reflexivity. }
    rewrite Hs. split; [|discriminate]. split; [discriminate|].
    intros Hall. rewrite Forall_forall in Hall.
    destruct (Hnot (Hall (u, a) Hua)).
Qed.

Lemma check_quorum_success_witness :
  partials (Result_of OK "Ceph-mon quorum check passed.") ≠ []
  ∧ (success (Result_of OK "Ceph-mon quorum check passed.") = true ↔
     Forall (λ ua, keeps_quorum (affected_hosts [sample_mon_unit "0" "a"])
                     ua.2)
       [("ceph-mon/0",
         Action.mk "10"
           (Some (sample_quorum_status five_mons ["a"; "b"; "c"; "d"])))]).
Proof.
  pose proof (check_quorum_success [sample_mon_unit "0" "a"]
    [("ceph-mon/0",
      Action.mk "10"
        (Some (sample_quorum_status five_mons ["a"; "b"; "c"; "d"])))]
    (Result_of OK "Ceph-mon quorum check passed.") eq_refl) as (H1 & H2 & _).
  split; [exact H1 | exact H2].
Defined.

Lemma affected_hosts_subseteq (units units' : list Unit.t) :
  units ⊆ units' → affected_hosts units ⊆ affected_hosts units'.
Proof.
  intros Hsub x. unfold affected_hosts.
  rewrite !elem_of_list_to_set, !list_elem_of_fmap.
  intros (u & -> & Hu). exists u. auto.
Qed.

(** X9: with more units to remove, [check_quorum] still returns, and every
    FAIL partial of the smaller request is a partial of the larger one. *)
Theorem check_quorum_more_units (units units' : list Unit.t)
    (action_results : list (string * Action.t)) (result : Result) :
  units ⊆ units' →
  check_quorum units action_results = Ok result →
  ∃ result',
    check_quorum units' action_results = Ok result'
    ∧ ∀ message,
        (FAIL, message) ∈ partials result →
        (FAIL, message) ∈ partials result'.
Proof.
  intros Hsub H. pose proof H as H0. unfold check_quorum in H0.
  apply bind_Ok in H0 as (r & Hr & _).
  destruct (quorum_loop_returns _ (affected_hosts units') _ Result_empty _ _ Hr)
    as [r' Hr'].
  assert (check_quorum units' action_results
          = Ok (Result_or r' (Result_of OK "Ceph-mon quorum check passed.")))
    as H' by (unfold check_quorum; rewrite Hr'; reflexivity).
  eexists. split; [exact H'|]. intros message.
  rewrite (check_quorum_FAIL_elem_of _ _ _ _ H),
    (check_quorum_FAIL_elem_of _ _ _ _ H').
  intros (u & a & Hua & Hc). exists u, a. split; [exact Hua|].
  unfold quorum_contribution in *.
  destruct (_parse_quorum_status a) as [[n online]|e]; [|exact Hc].
  destruct Hc as [Hle Hm]. split; [|exact Hm].
  assert (size (online ∖ affected_hosts units')
          ≤ size (online ∖ affected_hosts units))%nat; [|lia].
  apply subseteq_size. apply affected_hosts_subseteq in Hsub.
  intros y Hy. apply elem_of_difference in Hy as [Hy Hnot].
  apply elem_of_difference. split; [exact Hy|].
  intros Hin. apply Hnot, Hsub, Hin.
Qed.

Lemma check_quorum_more_units_witness :
  ∃ result',
    check_quorum [sample_mon_unit "0" "a"; sample_mon_unit "1" "b"]
      [("ceph-mon/0",
        Action.mk "10" (Some (sample_quorum_status five_mons ["a"; "b"; "c"])))]
    = Ok result'
    ∧ ∀ message,
        (FAIL, message)
        ∈ partials (Result_of FAIL (quorum_lost_message "ceph-mon/0")) →
        (FAIL, message) ∈ partials result'.
Proof.
  apply (check_quorum_more_units [sample_mon_unit "0" "a"]
           [sample_mon_unit "0" "a"; sample_mon_unit "1" "b"]).
  - intros x Hx. apply list_elem_of_singleton in Hx as ->.
    apply list_elem_of_here.
  - reflexivity.
Defined.

Lemma set_of_names (mons : list json) (known : list string) :
  Forall2 (λ mon name, subscript mon "name" = Ok (JStr name)) mons known →
  set_of (λ mon, subscript mon "name") mons
  = Ok (list_to_set (map AStr known)).
Proof.
  induction 1 as [|mon name mons known Hname _ IH]; simpl; [reflexivity|].
  rewrite Hname. simpl. rewrite IH. reflexivity.
Qed.

Lemma set_of_strings (names : list string) :
  set_of Ok (map JStr names) = Ok (list_to_set (map AStr names)).
Proof.
  induction names as [|name names IH]; simpl; [reflexivity|].
  rewrite IH. reflexivity.
Qed.

(** X10: on a quorum status of the expected shape, [_parse_quorum_status]
    returns the number of distinct names of the monitors of the monmap and
    the set of the names in the quorum. *)
Theorem _parse_quorum_status_well_formed (action : Action.t)
    (quorum_status : json) (known online : list string) :
  Action.message action = Some quorum_status →
  well_formed_quorum_status quorum_status known online →
  _parse_quorum_status action
  = Ok (size (list_to_set (C := gset atom) (map AStr known)),
        list_to_set (map AStr online)).
Proof.
  intros Hm (members & monmap_members & mons & -> & Hmonmap & Hmons
             & Hnames & Hquorum).
  unfold _parse_quorum_status, know_mons, online_mons. rewrite Hm. simpl.
  rewrite Hmonmap. simpl. rewrite Hmons. simpl.
  rewrite (set_of_names _ _ Hnames). simpl.
  rewrite Hquorum. simpl. rewrite set_of_strings. reflexivity.
Qed.

Lemma _parse_quorum_status_well_formed_witness :
  _parse_quorum_status
    (Action.mk "10" (Some (sample_quorum_status ["a"; "b"; "a"] ["a"])))
  = Ok (size (list_to_set (C := gset atom) (map AStr ["a"; "b"; "a"])),
        list_to_set (map AStr ["a"])).
Proof.
  apply (_parse_quorum_status_well_formed _
           (sample_quorum_status ["a"; "b"; "a"] ["a"])); [reflexivity|].
  eexists _, _, _. split; [reflexivity|]. split; [reflexivity|].
  split; [reflexivity|]. split; [|reflexivity].
  repeat constructor.
Defined.

(** ** [get_replication_number] and [check_replication_number]: errors *)

Lemma pool_margins_first_bad (good : list json) (pools : list (Z * Z))
    (bad : json) (rest : list json) (e : exn) :
  Forall2 is_pool good pools →
  pool_margin bad = Raise e →
  pool_margins (good ++ bad :: rest) = Raise e.
Proof.
  intros Hgood Hbad.
  induction Hgood as [|item pool items pools [Hs Hm] _ IH]; simpl.
  - rewrite Hbad. reflexivity.
  - unfold pool_margin at 1. rewrite Hs. simpl. rewrite Hm. simpl.
    rewrite IH. reflexivity.
Qed.

(** X11: [get_replication_number] raises [JSONDecodeError] on a message
    that is not JSON, returns [None] on every falsy value (no pool, but also
    [null], [0], an empty string or object), and raises [KeyError] when the
    first pool that is not a complete record lacks [size] or [min_size]. *)
Theorem get_replication_number_edges :
  get_replication_number None = Raise JSONDecodeError
  ∧ (∀ value, truthy value = false →
       get_replication_number (Some value) = Ok None)
  ∧ (∀ good pools members rest,
       Forall2 is_pool good pools →
       dict_get "size" members = None ∨ dict_get "min_size" members = None →
       get_replication_number (Some (JArr (good ++ JObj members :: rest)))
       = Raise KeyError).
Proof.
  split; [reflexivity|]. split.
  - intros value Hv. unfold get_replication_number. simpl. rewrite Hv.
    reflexivity.
  - intros good pools members rest Hgood Hmissing.
    assert (truthy (JArr (good ++ JObj members :: rest)) = true) as Ht
      by (destruct good; reflexivity).
    unfold get_replication_number, json_loads. cbn [mbind res_bind].
    rewrite Ht. cbn [iterate mbind res_bind].
    rewrite (pool_margins_first_bad good pools (JObj members) rest KeyError);
      [reflexivity | exact Hgood |].
    unfold pool_margin. simpl.
    destruct Hmissing as [-> | Hmin]; [reflexivity|].
    destruct (dict_get "size" members); simpl; [|reflexivity].
    rewrite Hmin. reflexivity.
Qed.

Lemma get_replication_number_edges_witness :
  get_replication_number
    (Some (JArr [sample_pool "rbd" 3 2; JObj [("pool", JStr "cephfs")]]))
  = Raise KeyError
  ∧ get_replication_number (Some (JObj [])) = Ok None.
Proof.
  destruct get_replication_number_edges as (_ & Hfalsy & Hkey).
  split.
  - apply (Hkey [sample_pool "rbd" 3 2] [(3, 2)] [("pool", JStr "cephfs")] []).
    + repeat constructor.
    + left. reflexivity.
  - apply Hfalsy. reflexivity.
Defined.

(** X12: [check_replication_number] catches nothing: when the applications
    before one return, an exception of [get_replication_number] for that
    application, or the [KeyError] of an application with pools that the
    model does not know, is raised by the check. *)
Theorem check_replication_number_not_caught (units : list Unit.t)
    (applications : gmap string (list Unit.t))
    (before after : list (string * option json)) (app_name : string)
    (message : option json) (result_before : Result) (e : exn) :
  replication_loop units applications Result_empty before
  = Ok result_before →
  get_replication_number message = Raise e
  ∨ (e = KeyError ∧ applications !! app_name = None
     ∧ ∃ margin, get_replication_number message = Ok (Some margin)) →
  check_replication_number units applications
    (before ++ (app_name, message) :: after) = Raise e.
Proof.
  intros Hb He. unfold check_replication_number.
  rewrite replication_loop_app, Hb. simpl. unfold replication_partial.
  destruct He as [-> | (-> & Happ & margin & ->)]; simpl; [reflexivity|].
  rewrite Happ. reflexivity.
Qed.

Lemma check_replication_number_not_caught_witness :
  check_replication_number [sample_osd_unit "0" "active"] ∅
    [("ceph-osd", Some (JArr [])); ("ceph-osd-2", None)]
  = Raise JSONDecodeError
  ∧ check_replication_number [sample_osd_unit "0" "active"] ∅
      [("ceph-osd", Some (JArr [sample_pool "rbd" 3 2]))]
    = Raise KeyError.
Proof.
  split.
  - apply (check_replication_number_not_caught _ _
             [("ceph-osd", Some (JArr []))] [] "ceph-osd-2" None Result_empty);
      [reflexivity | left; reflexivity].
  - apply (check_replication_number_not_caught _ _ [] [] "ceph-osd"
             (Some (JArr [sample_pool "rbd" 3 2])) Result_empty);
      [reflexivity|].
    right. split; [reflexivity|]. split; [reflexivity|].
    exists 1. reflexivity.
Defined.

(** ** [check_replication_number]: success *)

Lemma replication_partial_cases (units : list Unit.t)
    (applications : gmap string (list Unit.t)) (app_name : string)
    (message : option json) (r : Result) :
  replication_partial units applications Result_empty app_name message = Ok r →
  (r = Result_empty ∧ within_margin units applications app_name message)
  ∨ (∃ m, r = Result_of FAIL m
          ∧ ¬ within_margin units applications app_name message).
Proof.
  unfold replication_partial, within_margin.
  destruct (get_replication_number message) as [[margin|]|e]; simpl;
    [| |discriminate].
  - destruct (applications !! app_name) as [app_units|]; [|discriminate].
    rewrite Z.gtb_ltb.
    destruct (Z.ltb_spec margin
                (Z.of_nat (size (units_of app_name units
                                 ∪ inactive_units_of app_units))))
      as [Hlt|Hge]; intros [= <-].
    + right. eexists. split; [reflexivity|]. intros H.
      specialize (H margin app_units eq_refl eq_refl). lia.
    + left. split; [reflexivity|]. intros ? ? [= <-] [= <-]. exact Hge.
  - intros [= <-]. left. split; [reflexivity|]. intros ? ? [=].
Qed.

Lemma replication_loop_cases (units : list Unit.t)
    (applications : gmap string (list Unit.t))
    (ceph_mon_app_map : list (string * option json)) (r : Result) :
  replication_loop units applications Result_empty ceph_mon_app_map = Ok r →
  (partials r = []
   ∧ Forall (λ am, within_margin units applications am.1 am.2)
       ceph_mon_app_map)
  ∨ (success r = false ∧ partials r ≠ []
     ∧ ¬ Forall (λ am, within_margin units applications am.1 am.2)
         ceph_mon_app_map).
Proof.
  revert r. induction ceph_mon_app_map as [|[app message] rest IH];
    intros r; simpl.
  - intros [= <-]. left. split; [reflexivity | constructor].
  - intros H. apply bind_Ok in H as (r1 & H1 & H2).
    rewrite replication_loop_shift in H2.
    apply bind_Ok in H2 as (r2 & H2 & [= <-]).
    apply replication_partial_cases in H1 as [[-> Hw]|(m & -> & Hw)].
    + rewrite combine_empty_l.
      destruct (IH r2 H2) as [[Hp Hall]|(Hs & Hp & Hall)].
      * left. split; [exact Hp|]. constructor; assumption.
      * right. split; [exact Hs|]. split; [exact Hp|].
        intros Hc. apply Forall_cons in Hc as [_ Hc]. contradiction.
    + right. split; [reflexivity|]. split; [discriminate|].
      intros Hc. apply Forall_cons in Hc as [Hc _]. contradiction.
Qed.

(** X13: a result of [check_replication_number] always has a partial, and
    it is a success exactly when every application that has pools is
    within its margin; it is then the single OK partial of the check. *)
Theorem check_replication_number_success (units : list Unit.t)
    (applications : gmap string (list Unit.t))
    (ceph_mon_app_map : list (string * option json)) (result : Result) :
  check_replication_number units applications ceph_mon_app_map = Ok result →
  partials result ≠ []
  ∧ (success result = true ↔
     Forall (λ am, within_margin units applications am.1 am.2)
       ceph_mon_app_map)
  ∧ (success result = true →
     result = Result_of OK "Minimum replica number check passed.").
Proof.
  unfold check_replication_number. intros H.
  apply bind_Ok in H as (r & Hr & [= <-]).
  apply replication_loop_cases in Hr as [[Hp Hall]|(Hs & Hp & Hall)];
    unfold Result_or.
  - rewrite Hp. split; [discriminate|]. split; [|reflexivity].
    split; [intros _; exact Hall | reflexivity].
  - destruct (partials r) as [|p ps] eqn:Hps; [contradiction|].
    rewrite Hps. split; [discriminate|]. rewrite Hs.
    split; [|discriminate]. split; [discriminate | contradiction].
Qed.

Lemma check_replication_number_success_witness :
  success (Result_of OK "Minimum replica number check passed.") = true ↔
  Forall (λ am, within_margin [sample_osd_unit "0" "active"]
                  {[ "ceph-osd" := [sample_osd_unit "0" "active";
                                    sample_osd_unit "1" "active"] ]}
                  am.1 am.2)
    [("ceph-osd", Some (JArr [sample_pool "rbd" 3 2]))].
Proof.
  exact (proj1 (proj2 (check_replication_number_success
    [sample_osd_unit "0" "active"]
    {[ "ceph-osd" := [sample_osd_unit "0" "active";
                      sample_osd_unit "1" "active"] ]}
    [("ceph-osd", Some (JArr [sample_pool "rbd" 3 2]))]
    (Result_of OK "Minimum replica number check passed.") eq_refl))).
Defined.

(** ** [check_availability_zone] *)

Lemma availability_zone_partial_shift (limit : nat) (units : list Unit.t)
    (result : Result) (ceph_osd_app : string) (ceph_tree : CephTree) :
  availability_zone_partial limit units result ceph_osd_app ceph_tree =
  availability_zone_partial limit units Result_empty ceph_osd_app ceph_tree
  ≫= λ added, Ok (combine result added).
Proof.
  assert (combine result Result_empty = result) as Hid.
  { destruct result as [ps]. unfold combine. simpl.
    rewrite app_nil_r. reflexivity. }
  unfold availability_zone_partial.
  destruct (can_remove_host_node _ _ _ _) as [[|]|e]; simpl.
  - rewrite Hid. reflexivity.
  - reflexivity.
  - reflexivity.
Qed.

Lemma availability_zone_loop_shift (limit : nat) (units : list Unit.t)
    (result : Result) (ceph_tree_map : list (string * CephTree)) :
  availability_zone_loop limit units result ceph_tree_map =
  availability_zone_loop limit units Result_empty ceph_tree_map
  ≫= λ added, Ok (combine result added).
Proof.
  revert result.
  induction ceph_tree_map as [|[app tree] rest IH]; intros result; simpl.
  - destruct result as [ps]. unfold combine. simpl.
    rewrite app_nil_r. reflexivity.
  - rewrite (availability_zone_partial_shift _ _ result).
    destruct (availability_zone_partial limit units Result_empty app tree)
      as [r1|e]; simpl; [|reflexivity].
    rewrite (IH (combine result r1)), (IH r1).
    destruct (availability_zone_loop limit units Result_empty rest)
      as [r2|e]; simpl; [|reflexivity].
    unfold combine. simpl. rewrite app_assoc. reflexivity.
Qed.

Lemma availability_zone_loop_app (limit : nat) (units : list Unit.t)
    (result : Result) (l1 l2 : list (string * CephTree)) :
  availability_zone_loop limit units result (l1 ++ l2) =
  availability_zone_loop limit units result l1
  ≫= λ result', availability_zone_loop limit units result' l2.
Proof.
  revert result. induction l1 as [|[app tree] l1 IH]; intros result; simpl.
  - reflexivity.
  - destruct (availability_zone_partial limit units result app tree)
      as [r|e]; simpl; [apply IH | reflexivity].
Qed.

Lemma availability_zone_partial_cases (limit : nat) (units : list Unit.t)
    (ceph_osd_app : string) (ceph_tree : CephTree) (r : Result) :
  availability_zone_partial limit units Result_empty ceph_osd_app ceph_tree
  = Ok r →
  (r = Result_empty ∧ zone_is_safe limit units ceph_osd_app ceph_tree)
  ∨ (r = Result_of FAIL
           (availability_zone_message (units_hostnames ceph_osd_app units)
              ceph_tree)
     ∧ can_remove_host_node limit ceph_tree
         (units_hostnames ceph_osd_app units).*2
         (ancestor_node_type REPLICATION_RULE) = Ok false).
Proof.
  unfold availability_zone_partial, zone_is_safe.
  destruct (can_remove_host_node _ _ _ _) as [[|]|e]; simpl;
    [| |discriminate]; intros [= <-]; auto.
Qed.

Lemma availability_zone_loop_cases (limit : nat) (units : list Unit.t)
    (ceph_tree_map : list (string * CephTree)) (r : Result) :
  availability_zone_loop limit units Result_empty ceph_tree_map = Ok r →
  (partials r = []
   ∧ Forall (λ at_, zone_is_safe limit units at_.1 at_.2) ceph_tree_map)
  ∨ (success r = false ∧ partials r ≠ []
     ∧ ¬ Forall (λ at_, zone_is_safe limit units at_.1 at_.2) ceph_tree_map).
Proof.
  revert r. induction ceph_tree_map as [|[app tree] rest IH]; intros r; simpl.
  - intros [= <-]. left. split; [reflexivity | constructor].
  - intros H. apply bind_Ok in H as (r1 & H1 & H2).
    rewrite availability_zone_loop_shift in H2.
    apply bind_Ok in H2 as (r2 & H2 & [= <-]).
    apply availability_zone_partial_cases in H1 as [[-> Hw]|[-> Hw]].
    + rewrite combine_empty_l.
      destruct (IH r2 H2) as [[Hp Hall]|(Hs & Hp & Hall)].
      * left. split; [exact Hp|]. constructor; assumption.
      * right. split; [exact Hs|]. split; [exact Hp|].
        intros Hc. apply Forall_cons in Hc as [_ Hc]. contradiction.
    + right. split; [reflexivity|]. split; [discriminate|].
      intros Hc. apply Forall_cons in Hc as [Hc _].
      unfold zone_is_safe in Hc. simpl in Hc. congruence.
Qed.

(** X14: a result of [check_availability_zone] always has a partial, and it
    is a success exactly when, for every application, the hosts of its
    units can be removed from its tree, with [root] as the ancestor type;
    it is then the single OK partial of the check. *)
Theorem check_availability_zone_success (limit : nat) (units : list Unit.t)
    (ceph_tree_map : list (string * CephTree)) (result : Result) :
  check_availability_zone limit units ceph_tree_map = Ok result →
  partials result ≠ []
  ∧ (success result = true ↔
     Forall (λ at_,
               can_remove_host_node limit at_.2
                 (units_hostnames at_.1 units).*2 "root" = Ok true)
       ceph_tree_map)
  ∧ (success result = true →
     result = Result_of OK "Availability zone check passed.").
Proof.
  unfold check_availability_zone. intros H.
  apply bind_Ok in H as (r & Hr & [= <-]).
  apply availability_zone_loop_cases in Hr as [[Hp Hall]|(Hs & Hp & Hall)];
    unfold Result_or.
  - rewrite Hp. split; [discriminate|]. split; [|reflexivity].
    split; [intros _; exact Hall | reflexivity].
  - destruct (partials r) as [|p ps] eqn:Hps; [contradiction|].
    rewrite Hps. split; [discriminate|]. rewrite Hs.
    split; [|discriminate]. split; [discriminate | contradiction].
Qed.

Lemma check_availability_zone_success_witness :
  success (Result_of OK "Availability zone check passed.") = true ↔
  Forall (λ at_,
            can_remove_host_node 1000 at_.2
              (units_hostnames at_.1
                 [sample_osd_unit "0" "active"; sample_osd_unit "1" "active"]).*2
              "root" = Ok true)
    [("ceph-osd", pair_tree 1001)].
Proof.
  exact (proj1 (proj2 (check_availability_zone_success 1000
    [sample_osd_unit "0" "active"; sample_osd_unit "1" "active"]
    [("ceph-osd", pair_tree 1001)]
    (Result_of OK "Availability zone check passed.") eq_refl))).
Defined.

(** X15: [check_availability_zone] catches nothing and names the units of
    an unsafe application: when the applications before one return, an
    exception of [can_remove_host_node] for that application is raised by
    the check, and a [False] adds the FAIL partial with the units of the
    application and the tree; an application none of whose units is
    verified adds nothing. *)
Theorem check_availability_zone_partial (limit : nat) (units : list Unit.t)
    (before after : list (string * CephTree)) (ceph_osd_app : string)
    (ceph_tree : CephTree) (result_before : Result) :
  availability_zone_loop limit units Result_empty before = Ok result_before →
  (∀ e,
     can_remove_host_node limit ceph_tree
       (units_hostnames ceph_osd_app units).*2 "root" = Raise e →
     check_availability_zone limit units
       (before ++ (ceph_osd_app, ceph_tree) :: after) = Raise e)
  ∧ (can_remove_host_node limit ceph_tree
       (units_hostnames ceph_osd_app units).*2 "root" = Ok false →
     availability_zone_loop limit units Result_empty
       (before ++ [(ceph_osd_app, ceph_tree)])
     = Ok (add_partial_result result_before FAIL
             (availability_zone_message (units_hostnames ceph_osd_app units)
                ceph_tree)))
  ∧ (Forall (λ unit, Unit.application unit ≠ ceph_osd_app) units →
     availability_zone_loop limit units Result_empty
       (before ++ [(ceph_osd_app, ceph_tree)]) = Ok result_before).
Proof.
  intros Hb. split; [|split].
  - intros e He. unfold check_availability_zone.
    rewrite availability_zone_loop_app, Hb. simpl.
    unfold availability_zone_partial.
    change (ancestor_node_type REPLICATION_RULE) with "root".
    rewrite He. reflexivity.
  - intros Hf. rewrite availability_zone_loop_app, Hb. simpl.
    unfold availability_zone_partial.
    change (ancestor_node_type REPLICATION_RULE) with "root".
    rewrite Hf. reflexivity.
  - intros Hnone. rewrite availability_zone_loop_app, Hb. simpl.
    unfold availability_zone_partial, units_hostnames.
    assert (List.filter
              (λ unit, bool_decide (Unit.application unit = ceph_osd_app))
              units = []) as ->.
    { clear Hb. induction Hnone as [|u us Hu _ IH]; simpl; [reflexivity|].
      rewrite bool_decide_eq_false_2 by exact Hu. exact IH. }
    reflexivity.
Qed.

Lemma check_availability_zone_partial_witness :
  check_availability_zone 1000
    [sample_osd_unit "0" "active"; sample_osd_unit "7" "active"]
    [("ceph-osd", pair_tree 1001)] = Raise KeyError
  ∧ availability_zone_loop 1000
      [sample_osd_unit "0" "active"; sample_osd_unit "1" "active"]
      Result_empty [("ceph-osd", pair_tree 1000)]
    = Ok (add_partial_result Result_empty FAIL
            (availability_zone_message
               (units_hostnames "ceph-osd"
                  [sample_osd_unit "0" "active"; sample_osd_unit "1" "active"])
               (pair_tree 1000)))
  ∧ availability_zone_loop 1000 [sample_osd_unit "0" "active"] Result_empty
      [("ceph-osd-2", pair_tree 1000)] = Ok Result_empty.
Proof.
  split; [|split].
  - apply (proj1 (check_availability_zone_partial 1000
                    [sample_osd_unit "0" "active"; sample_osd_unit "7" "active"]
                    [] [] "ceph-osd" (pair_tree 1001) Result_empty eq_refl)).
    reflexivity.
  - apply (proj1 (proj2 (check_availability_zone_partial 1000
                    [sample_osd_unit "0" "active"; sample_osd_unit "1" "active"]
                    [] [] "ceph-osd" (pair_tree 1000) Result_empty eq_refl))).
    reflexivity.
  - apply (proj2 (proj2 (check_availability_zone_partial 1000
                    [sample_osd_unit "0" "active"]
                    [] [] "ceph-osd-2" (pair_tree 1000) Result_empty eq_refl))).
    repeat constructor. discriminate.
Defined.

(** ** [CephTree.__str__]: the order of the nodes *)

Lemma insert_by_type_id_Permutation (node : NodeInfo.t)
    (nodes : list NodeInfo.t) :
  insert_by_type_id node nodes ≡ₚ node :: nodes.
Proof.
  induction nodes as [|other rest IH]; simpl; [reflexivity|].
  destruct (_ <=? _); [reflexivity|].
  rewrite IH. apply Permutation_swap.
Qed.

Lemma insert_by_type_id_filter (node : NodeInfo.t)
    (nodes : list NodeInfo.t) (type_id : Z) :
  filter (λ n, NodeInfo.type_id n = type_id) (insert_by_type_id node nodes)
  = filter (λ n, NodeInfo.type_id n = type_id) (node :: nodes).
Proof.
  induction nodes as [|other rest IH]; simpl; [reflexivity|].
  destruct (Z.leb_spec (NodeInfo.type_id other) (NodeInfo.type_id node))
    as [Hle|Hgt]; [reflexivity|].
  rewrite (filter_cons _ other), IH, !filter_cons.
  repeat case_decide; (reflexivity || lia).
Qed.

Lemma insert_by_type_id_sorted (node : NodeInfo.t)
    (nodes : list NodeInfo.t) :
  StronglySorted (λ a b, NodeInfo.type_id b ≤ NodeInfo.type_id a) nodes →
  StronglySorted (λ a b, NodeInfo.type_id b ≤ NodeInfo.type_id a)
    (insert_by_type_id node nodes).
Proof.
  induction 1 as [|other rest Hrest IH Hall]; simpl.
  - repeat constructor.
  - destruct (Z.leb_spec (NodeInfo.type_id other) (NodeInfo.type_id node))
      as [Hle|Hgt].
    + constructor; [constructor; assumption|].
      constructor; [exact Hle|].
      eapply Forall_impl; [exact Hall|]. simpl. intros x Hx. lia.
    + constructor; [exact IH|].
      rewrite insert_by_type_id_Permutation.
      constructor; [lia | exact Hall].
Qed.

(** X16: [CephTree.__str__] writes every node of the tree once, by
    decreasing [type_id], the nodes of the same [type_id] in the order of
    the list. *)
Theorem CephTree___str___order (self : CephTree) :
  CephTree___str__ self
  = str_join "," (map NodeInfo___str__ (sorted_by_type_id (_nodes self)))
  ∧ sorted_by_type_id (_nodes self) ≡ₚ _nodes self
  ∧ StronglySorted (λ a b, NodeInfo.type_id b ≤ NodeInfo.type_id a)
      (sorted_by_type_id (_nodes self))
  ∧ ∀ type_id,
      filter (λ n, NodeInfo.type_id n = type_id)
        (sorted_by_type_id (_nodes self))
      = filter (λ n, NodeInfo.type_id n = type_id) (_nodes self).
Proof.
  split; [reflexivity|]. unfold sorted_by_type_id.
  induction (_nodes self) as [|node nodes (Hperm & Hsorted & Hfilter)]; simpl.
  - split; [reflexivity|]. split; [constructor | reflexivity].
  - split; [|split].
    + rewrite insert_by_type_id_Permutation, Hperm. reflexivity.
    + apply insert_by_type_id_sorted, Hsorted.
    + intros type_id. rewrite insert_by_type_id_filter, !filter_cons, Hfilter.
      reflexivity.
Qed.

(** ** Dictionaries built by a comprehension *)

Section Dict.
Context {K V : Type} `{EqDecision K}.

Lemma dict_setitem_keys (key : K) (value : V) (d : list (K * V)) :
  (dict_setitem key value d).*1 =
  if decide (key ∈ d.*1) then d.*1 else d.*1 ++ [key].
Proof.
  induction d as [|[k v] d IH]; [reflexivity|].
  cbn [dict_setitem]. rewrite fmap_cons. cbn [fst].
  destruct (decide (k = key)) as [->|Hk]; rewrite fmap_cons; cbn [fst].
  - rewrite decide_True by apply list_elem_of_here. reflexivity.
  - rewrite IH. destruct (decide (key ∈ d.*1)) as [Hin|Hin].
    + rewrite decide_True by (apply list_elem_of_further, Hin). reflexivity.
    + rewrite decide_False; [reflexivity|].
      rewrite elem_of_cons. intros [->|?]; congruence.
Qed.

Lemma dict_setitem_NoDup (key : K) (value : V) (d : list (K * V)) :
  NoDup d.*1 → NoDup (dict_setitem key value d).*1.
Proof.
  intros Hd. rewrite dict_setitem_keys.
  destruct (decide (key ∈ d.*1)) as [Hin|Hin]; [exact Hd|].
  apply NoDup_app. split; [exact Hd|]. split.
  - intros x Hx Hk. apply list_elem_of_singleton in Hk as ->. exact (Hin Hx).
  - apply NoDup_singleton.
Qed.

Lemma dict_setitem_elem_of (key k : K) (value v : V) (d : list (K * V)) :
  NoDup d.*1 →
  (k, v) ∈ dict_setitem key value d ↔
  (k = key ∧ v = value) ∨ (k ≠ key ∧ (k, v) ∈ d).
Proof.
  induction d as [|[k0 v0] d IH]; intros Hd.
  - simpl. rewrite list_elem_of_singleton, elem_of_nil. split.
    + intros [= -> ->]. auto.
    + intros [[-> ->]|[_ []]]. reflexivity.
  - rewrite fmap_cons in Hd. apply NoDup_cons in Hd as [Hk0 Hd]. simpl.
    destruct (decide (k0 = key)) as [->|Hk]; rewrite !elem_of_cons.
    + split.
      * intros [[= -> ->]|Hin]; [auto|].
        right. split; [|auto]. intros ->. apply Hk0.
        apply list_elem_of_fmap. exists (key, v). auto.
      * intros [[-> ->]|[Hne [[= -> ->]|Hin]]]; [auto | contradiction | auto].
    + rewrite (IH Hd). split.
      * intros [[= -> ->]|[[-> ->]|[Hne Hin]]]; auto.
      * intros [[-> ->]|[Hne [[= -> ->]|Hin]]]; auto.
Qed.

Lemma dict_of_snoc (items : list (K * V)) (key : K) (value : V) :
  dict_of (items ++ [(key, value)]) = dict_setitem key value (dict_of items).
Proof. unfold dict_of. rewrite foldl_snoc. reflexivity. Qed.

Lemma dict_of_NoDup (items : list (K * V)) : NoDup (dict_of items).*1.
Proof.
  induction items as [|[k v] items IH] using rev_ind.
  - constructor.
  - rewrite dict_of_snoc. apply dict_setitem_NoDup, IH.
Qed.

(** The items of the dictionary are the last items of each key. *)
Lemma dict_of_elem_of (items : list (K * V)) (k : K) (v : V) :
  (k, v) ∈ dict_of items ↔
  ∃ l1 l2, items = l1 ++ (k, v) :: l2 ∧ k ∉ l2.*1.
Proof.
  induction items as [|[key value] items IH] using rev_ind.
  - split; [intros H; inversion H|].
    intros (l1 & l2 & H & _). destruct l1; discriminate.
  - rewrite dict_of_snoc, dict_setitem_elem_of by apply dict_of_NoDup.
    rewrite IH. split.
    + intros [[-> ->]|[Hne (l1 & l2 & -> & Hnot)]].
      * exists items, []. split; [reflexivity | apply not_elem_of_nil].
      * exists l1, (l2 ++ [(key, value)]). rewrite <- app_assoc.
        split; [reflexivity|]. rewrite fmap_app, elem_of_app.
        intros [Hin|Hin]; [contradiction|].
        apply list_elem_of_singleton in Hin. contradiction.
    + intros (l1 & l2 & Heq & Hnot).
      destruct l2 as [|x l2 _] using rev_ind.
      * apply app_inj_tail in Heq as [_ [= -> ->]]. auto.
      * rewrite app_comm_cons, app_assoc in Heq.
        apply app_inj_tail in Heq as [-> <-]. right.
        rewrite fmap_app, elem_of_app in Hnot. split.
        -- intros ->. apply Hnot. right. apply list_elem_of_here.
        -- exists l1, l2. split; [reflexivity|]. intros Hin. apply Hnot. auto.
Qed.

Lemma dict_of_keys (items : list (K * V)) (k : K) :
  k ∈ (dict_of items).*1 ↔ k ∈ items.*1.
Proof.
  induction items as [|[key value] items IH] using rev_ind.
  - reflexivity.
  - rewrite dict_of_snoc, dict_setitem_keys, fmap_app, elem_of_app.
    simpl. rewrite list_elem_of_singleton.
    destruct (decide (key ∈ (dict_of items).*1)) as [Hin|Hin].
    + rewrite IH. split; [auto|]. intros [H| ->]; [exact H|].
      apply IH, Hin.
    + rewrite elem_of_app, list_elem_of_singleton, IH. reflexivity.
Qed.
End Dict.

(** ** One unit for each application *)

Lemma keyed_values {K V : Type} (f : V → K) (d : list (K * V)) :
  Forall (λ kv, kv.1 = f kv.2) d → map f d.*2 = d.*1.
Proof.
  induction 1 as [|[k v] d Hk _ IH]; [reflexivity|].
  simpl in *. f_equal; [symmetry; exact Hk | exact IH].
Qed.

(** X17: [CephMon.check_ceph_cluster_health] takes one unit for each
    application of the units to verify: no application twice, every
    application of a unit among them, and for each the last of its units
    in the list. *)
Theorem unique_app_units_last (units : list Unit.t) :
  NoDup (map Unit.application (unique_app_units units))
  ∧ (∀ unit,
       unit ∈ unique_app_units units ↔
       ∃ l1 l2,
         units = l1 ++ unit :: l2
         ∧ Forall (λ u, Unit.application u ≠ Unit.application unit) l2)
  ∧ (∀ unit,
       unit ∈ units →
       Unit.application unit
       ∈ map Unit.application (unique_app_units units)).
Proof.
  unfold unique_app_units.
  set (f := λ unit : Unit.t, (Unit.application unit, unit)).
  assert (∀ k unit,
            (k, unit) ∈ dict_of (map f units) ↔
            k = Unit.application unit
            ∧ ∃ l1 l2,
                units = l1 ++ unit :: l2
                ∧ Forall (λ u, Unit.application u ≠ Unit.application unit) l2)
    as Hitems.
  { intros k unit. rewrite dict_of_elem_of. split.
    - intros (k1 & k2 & Heq & Hnot).
      apply fmap_app_inv in Heq as (l1 & l2' & -> & Hcons & ->).
      symmetry in Hcons.
      apply fmap_cons_inv in Hcons as (u & l2 & Hu & -> & ->).
      injection Hu as -> <-. split; [reflexivity|].
      exists l1, l2. split; [reflexivity|].
      apply Forall_forall. intros u' Hu' Happ. apply Hnot.
      apply list_elem_of_fmap. exists (f u'). split; [symmetry; exact Happ|].
      apply list_elem_of_fmap. exists u'. auto.
    - intros (-> & l1 & l2 & -> & Hall).
      exists (map f l1), (map f l2). split.
      + rewrite map_app. reflexivity.
      + intros Hin. apply list_elem_of_fmap in Hin as ([k u'] & Hk & Hin).
        apply list_elem_of_fmap in Hin as (u'' & [= -> ->] & Hin).
        simpl in Hk. rewrite Forall_forall in Hall.
        apply (Hall u'' Hin). symmetry. exact Hk. }
  assert (map Unit.application (dict_of (map f units)).*2
          = (dict_of (map f units)).*1) as Hkeys.
  { apply keyed_values, Forall_forall. intros [k unit] Hin.
    apply Hitems in Hin as [-> _]. reflexivity. }
  split; [|split].
  - rewrite Hkeys. apply dict_of_NoDup.
  - intros unit. rewrite list_elem_of_fmap. split.
    + intros ([k u] & -> & Hin). apply Hitems in Hin as [_ H]. exact H.
    + intros H. exists (Unit.application unit, unit).
      split; [reflexivity|]. apply Hitems. auto.
  - intros unit Hin. rewrite Hkeys. apply dict_of_keys.
    apply list_elem_of_fmap. exists (f unit). split; [reflexivity|].
    apply list_elem_of_fmap. exists unit. auto.
Qed.

Lemma unique_app_units_last_witness :
  Unit.application (sample_mon_unit "1" "b")
  ∈ map Unit.application
      (unique_app_units [sample_mon_unit "0" "a"; sample_mon_unit "1" "b"]).
Proof.
  apply (proj2 (proj2 (unique_app_units_last
                         [sample_mon_unit "0" "a"; sample_mon_unit "1" "b"]))).
  apply list_elem_of_further, list_elem_of_here.
Defined.
